(** * MonopolySimulator: the notebook [dummy_vs_no_brown_players.py]

    A shallow embedding of the buy methods defined in the notebook (the
    decorator [modify_buy], the subclass [Player_no_brown] with its copied
    [buy], and [buy_new] installed with [types.MethodType]), of the trial
    loop that plays two players against each other, and of the counts fed
    to the binomial test. *)

From Stdlib Require QArith.
From stdpp Require Import gmap strings list functions numbers.
From Equations Require Import Equations.

Local Open Scope string_scope.
Local Open Scope Z_scope.

(** ** Data model *)

(** Road dictionaries are mutable Python objects that are shared between the
    board tables and the players: they live in a store and are passed by
    reference. *)
Definition loc := nat.

(** The keys of a road dictionary that the buy methods read or write. *)
Record Road := mkRoad {
  color : string;
  price : Z;
  mortgage_value : Z;
  belongs_to : option string
}.

(** The attributes of a [Player] object that the buy methods read or write.
    [_dict_roads] maps a road name to the road dictionary it refers to; the
    attribute [_bank] is a reference to the bank dictionary, kept in the
    state below. *)
Record Player := mkPlayer {
  _name : string;
  _cash : Z;
  _list_owned_roads : list string;
  _dict_owned_houses_hotels : gmap string (Z * Z);
  _properties_total_mortgageable_amount : Z;
  _dict_roads : gmap string loc;
  _dict_owned_colors : gmap string bool
}.

(** What a method call on a player can touch: the player itself, the ['cash']
    entry of the bank dictionary [self._bank], and the road dictionaries. *)
Record State := mkState {
  self : Player;
  bank_cash : Z;
  roads : loc → Road
}.

(** ** Python statements as state transformers that may raise *)

Inductive exn :=
| Exception (msg : string)
| KeyError (key : string).

Inductive result (A : Type) :=
| Returned (a : A)
| Raised (e : exn).
Arguments Returned {A} a.
Arguments Raised {A} e.

(** A statement runs in a state and leaves a state behind, also when it
    raises: what was mutated before the [raise] stays mutated. *)
Definition M (A : Type) : Type := State → result A * State.

Definition ret {A} (a : A) : M A := λ st, (Returned a, st).

Definition bind {A B} (m : M A) (k : A → M B) : M B := λ st,
  match m st with
  | (Returned a, st') => k a st'
  | (Raised e, st') => (Raised e, st')
  end.

Definition raise {A} (e : exn) : M A := λ st, (Raised e, st).

Definition read {A} (f : State → A) : M A := λ st, (Returned (f st), st).

Definition update (f : State → State) : M unit := λ st, (Returned tt, f st).

Notation "'let*' x := m 'in' k" := (bind m (λ x, k))
  (at level 10, x name, m at level 100, k at level 200).
Notation "m ;;; k" := (bind m (λ _, k))
  (at level 100, k at level 200, right associativity).

(** *** Attribute and item assignments *)

Definition set_cash (c : Z) (p : Player) : Player :=
  mkPlayer (_name p) c (_list_owned_roads p) (_dict_owned_houses_hotels p)
    (_properties_total_mortgageable_amount p) (_dict_roads p)
    (_dict_owned_colors p).

Definition set_list_owned_roads (l : list string) (p : Player) : Player :=
  mkPlayer (_name p) (_cash p) l (_dict_owned_houses_hotels p)
    (_properties_total_mortgageable_amount p) (_dict_roads p)
    (_dict_owned_colors p).

Definition set_dict_owned_houses_hotels (d : gmap string (Z * Z)) (p : Player)
  : Player :=
  mkPlayer (_name p) (_cash p) (_list_owned_roads p) d
    (_properties_total_mortgageable_amount p) (_dict_roads p)
    (_dict_owned_colors p).

Definition set_properties_total_mortgageable_amount (a : Z) (p : Player)
  : Player :=
  mkPlayer (_name p) (_cash p) (_list_owned_roads p)
    (_dict_owned_houses_hotels p) a (_dict_roads p) (_dict_owned_colors p).

Definition set_dict_owned_colors (d : gmap string bool) (p : Player) : Player :=
  mkPlayer (_name p) (_cash p) (_list_owned_roads p)
    (_dict_owned_houses_hotels p) (_properties_total_mortgageable_amount p)
    (_dict_roads p) d.

Definition set_belongs_to (o : option string) (r : Road) : Road :=
  mkRoad (color r) (price r) (mortgage_value r) o.

Definition on_self (f : Player → Player) (st : State) : State :=
  mkState (f (self st)) (bank_cash st) (roads st).

Definition on_bank (f : Z → Z) (st : State) : State :=
  mkState (self st) (f (bank_cash st)) (roads st).

Definition on_road (l : loc) (f : Road → Road) (st : State) : State :=
  mkState (self st) (bank_cash st) (<[l := f (roads st l)]> (roads st)).

(** [d['color']], [d['price']] and [d['mortgage_value']] of the road
    dictionary at [d]. *)
Definition getitem_color (d : loc) : M string :=
  read (λ st, color (roads st d)).
Definition getitem_price (d : loc) : M Z :=
  read (λ st, price (roads st d)).
Definition getitem_mortgage_value (d : loc) : M Z :=
  read (λ st, mortgage_value (roads st d)).

(** [self._dict_roads[road]], a [KeyError] when the name is not a key. *)
Definition dict_roads_getitem (road : string) : M loc := λ st,
  match _dict_roads (self st) !! road with
  | Some l => (Returned l, st)
  | None => (Raised (KeyError road), st)
  end.

(** The counting loop shared, as text, by the copies of [buy]:
<<
    for road in self._list_owned_roads:
        if color == self._dict_roads[road]['color']:
            count_roads_of_color += 1
>> *)
Fixpoint for_road_in (owned : list string) (c : string)
    (count_roads_of_color : nat) : M nat :=
  match owned with
  | [] => ret count_roads_of_color
  | road :: rest =>
      let* l := dict_roads_getitem road in
      let* c' := getitem_color l in
      for_road_in rest c
        (if bool_decide (c = c') then S count_roads_of_color
         else count_roads_of_color)
  end.

Definition not_enough_money (name : string) : exn :=
  Exception ("Player " +:+ name +:+ " does not have enough money").

Definition mark_color (c : string) : M unit :=
  update (on_self (λ p,
    set_dict_owned_colors (<[c := true]> (_dict_owned_colors p)) p)).

(** ** The buy methods *)

(** The decorator of cell 8: [_wrapper] skips the call for a brown road and
    otherwise hands its arguments to the decorated [buy]. *)
Definition modify_buy (buy : loc → string → M unit)
    (dict_road_info : loc) (road_name : string) : M unit :=
  let* color := getitem_color dict_road_info in
  if bool_decide (color = "brown") then ret tt
  else buy dict_road_info road_name.

(** [Player_no_brown.buy] of Appendix A: the subclass whose [buy] is written
    out in full. *)
Definition Player_no_brown_buy (dict_road_info : loc) (road_name : string)
  : M unit :=
  let* color := getitem_color dict_road_info in
  if bool_decide (color = "brown") then ret tt
  else
    let* road_price := getitem_price dict_road_info in
    (* enough money? *)
    let* cash := read (λ st, _cash (self st)) in
    (if bool_decide (cash < road_price)
     then let* name := read (λ st, _name (self st)) in
          raise (not_enough_money name)
     else ret tt) ;;;
    (* pay bank *)
    update (on_bank (λ cash, cash + road_price)) ;;;
    update (on_self (λ p, set_cash (_cash p - road_price) p)) ;;;
    (* exchange ownership *)
    let* name := read (λ st, _name (self st)) in
    update (on_road dict_road_info (set_belongs_to (Some name))) ;;;
    update (on_self (λ p,
      set_list_owned_roads (_list_owned_roads p ++ [road_name]) p)) ;;;
    update (on_self (λ p,
      set_dict_owned_houses_hotels
        (<[road_name := (0, 0)]> (_dict_owned_houses_hotels p)) p)) ;;;
    (* mortgage value *)
    let* mortgage := getitem_mortgage_value dict_road_info in
    update (on_self (λ p,
      set_properties_total_mortgageable_amount
        (_properties_total_mortgageable_amount p + mortgage) p)) ;;;
    let* color := getitem_color dict_road_info in
    let* owned := read (λ st, _list_owned_roads (self st)) in
    let* count_roads_of_color := for_road_in owned color 0 in
    if bool_decide (color = "brown")
       && bool_decide (count_roads_of_color = 2%nat)
    then mark_color color
    else if bool_decide (color = "light_blue")
            && bool_decide (count_roads_of_color = 3%nat)
    then mark_color color
    else if bool_decide (color = "purple")
            && bool_decide (count_roads_of_color = 3%nat)
    then mark_color color
    else if bool_decide (color = "orange")
            && bool_decide (count_roads_of_color = 3%nat)
    then mark_color color
    else if bool_decide (color = "red")
            && bool_decide (count_roads_of_color = 3%nat)
    then mark_color color
    else if bool_decide (color = "yellow")
            && bool_decide (count_roads_of_color = 3%nat)
    then mark_color color
    else if bool_decide (color = "green")
            && bool_decide (count_roads_of_color = 3%nat)
    then mark_color color
    else if bool_decide (color = "blue")
            && bool_decide (count_roads_of_color = 2%nat)
    then mark_color color
    else ret tt.

(** [buy_new] of Appendix A, bound to one player object with
    [types.MethodType]. *)
Definition buy_new (dict_road_info : loc) (road_name : string) : M unit :=
  let* color := getitem_color dict_road_info in
  if bool_decide (color = "brown") then ret tt
  else
    let* road_price := getitem_price dict_road_info in
    (* enough money? *)
    let* cash := read (λ st, _cash (self st)) in
    (if bool_decide (cash < road_price)
     then let* name := read (λ st, _name (self st)) in
          raise (not_enough_money name)
     else ret tt) ;;;
    (* pay bank *)
    update (on_bank (λ cash, cash + road_price)) ;;;
    update (on_self (λ p, set_cash (_cash p - road_price) p)) ;;;
    (* exchange ownership *)
    let* name := read (λ st, _name (self st)) in
    update (on_road dict_road_info (set_belongs_to (Some name))) ;;;
    update (on_self (λ p,
      set_list_owned_roads (_list_owned_roads p ++ [road_name]) p)) ;;;
    update (on_self (λ p,
      set_dict_owned_houses_hotels
        (<[road_name := (0, 0)]> (_dict_owned_houses_hotels p)) p)) ;;;
    (* mortgage value *)
    let* mortgage := getitem_mortgage_value dict_road_info in
    update (on_self (λ p,
      set_properties_total_mortgageable_amount
        (_properties_total_mortgageable_amount p + mortgage) p)) ;;;
    let* color := getitem_color dict_road_info in
    let* owned := read (λ st, _list_owned_roads (self st)) in
    let* count_roads_of_color := for_road_in owned color 0 in
    if bool_decide (color = "brown")
       && bool_decide (count_roads_of_color = 2%nat)
    then mark_color color
    else if bool_decide (color = "light_blue")
            && bool_decide (count_roads_of_color = 3%nat)
    then mark_color color
    else if bool_decide (color = "purple")
            && bool_decide (count_roads_of_color = 3%nat)
    then mark_color color
    else if bool_decide (color = "orange")
            && bool_decide (count_roads_of_color = 3%nat)
    then mark_color color
    else if bool_decide (color = "red")
            && bool_decide (count_roads_of_color = 3%nat)
    then mark_color color
    else if bool_decide (color = "yellow")
            && bool_decide (count_roads_of_color = 3%nat)
    then mark_color color
    else if bool_decide (color = "green")
            && bool_decide (count_roads_of_color = 3%nat)
    then mark_color color
    else if bool_decide (color = "blue")
            && bool_decide (count_roads_of_color = 2%nat)
    then mark_color color
    else ret tt.

(** ** Vocabulary for the statements about the buy methods *)

(** The road colour that a road name stands for in the player's table. *)
Definition color_of_name (st : State) (road : string) : option string :=
  (λ l, color (roads st l)) <$> _dict_roads (self st) !! road.

(** How many of the listed road names stand for a road of colour [c]. *)
Definition count_color (st : State) (owned : list string) (c : string) : nat :=
  length (filter (λ road, color_of_name st road = Some c) owned).

(** The chain of [if]/[elif] tests at the end of [buy], as one test. *)
Definition chain_marks (c : string) (n : nat) : bool :=
  bool_decide (c = "brown") && bool_decide (n = 2%nat)
  || bool_decide (c = "light_blue") && bool_decide (n = 3%nat)
  || bool_decide (c = "purple") && bool_decide (n = 3%nat)
  || bool_decide (c = "orange") && bool_decide (n = 3%nat)
  || bool_decide (c = "red") && bool_decide (n = 3%nat)
  || bool_decide (c = "yellow") && bool_decide (n = 3%nat)
  || bool_decide (c = "green") && bool_decide (n = 3%nat)
  || bool_decide (c = "blue") && bool_decide (n = 2%nat).

(** The state right after the payment, the exchange of ownership and the
    mortgage bookkeeping of a purchase of the road at [d] under [road_name]. *)
Definition acquired (d : loc) (road_name : string) (st : State) : State :=
  let p := self st in
  let r := roads st d in
  mkState
    (mkPlayer (_name p) (_cash p - price r)
       (_list_owned_roads p ++ [road_name])
       (<[road_name := (0, 0)]> (_dict_owned_houses_hotels p))
       (_properties_total_mortgageable_amount p + mortgage_value r)
       (_dict_roads p) (_dict_owned_colors p))
    (bank_cash st + price r)
    (<[d := set_belongs_to (Some (_name p)) r]> (roads st)).

Definition marked (c : string) (st : State) : State :=
  on_self (λ p, set_dict_owned_colors (<[c := true]> (_dict_owned_colors p)) p)
    st.

(** What a purchase that gets past the colour test and the money test does:
    it reaches [acquired], runs the counting loop there, and marks the colour
    when one of the chained tests fires. *)
Definition after_purchase (d : loc) (road_name : string) (st : State)
  : result unit * State :=
  let st1 := acquired d road_name st in
  let c := color (roads st d) in
  match for_road_in (_list_owned_roads (self st1)) c 0 st1 with
  | (Returned n, _) =>
      (Returned tt, if chain_marks c n then marked c st1 else st1)
  | (Raised e, _) => (Raised e, st1)
  end.

(** The two copies of the method that the notebook writes out in full. *)
Definition copied_buy (buy : loc → string → M unit) : Prop :=
  buy = Player_no_brown_buy ∨ buy = buy_new.

(** ** Example board and players *)

(** A small table of road dictionaries: two blue roads, one brown road and
    one light-blue road; every other reference is a further light-blue road. *)
Definition example_roads (l : loc) : Road :=
  match l with
  | 0%nat => mkRoad "blue" 350 175 None
  | 1%nat => mkRoad "blue" 400 200 None
  | 2%nat => mkRoad "brown" 60 30 None
  | _ => mkRoad "light_blue" 60 30 None
  end.

Definition example_dict_roads : gmap string loc :=
  <["park_place" := 0%nat]> (<["boardwalk" := 1%nat]>
  (<["old_kent_road" := 2%nat]> (<["the_angel_islington" := 3%nat]> ∅))).

Definition example_player (cash : Z) : Player :=
  mkPlayer "player1" cash [] ∅ 0 example_dict_roads ∅.

Definition example_state (cash : Z) : State :=
  mkState (example_player cash) 0 example_roads.

(** The cash held by the bank, by the player who acts and by the other
    players of the game. *)
Definition total_cash (st : State) (others : list Player) : Z :=
  bank_cash st + _cash (self st) + foldr (λ p acc, _cash p + acc) 0 others.

(** The completion threshold of each colour group. *)
Definition threshold (c : string) : option nat :=
  if bool_decide (c = "brown") then Some 2%nat
  else if bool_decide (c = "light_blue") then Some 3%nat
  else if bool_decide (c = "purple") then Some 3%nat
  else if bool_decide (c = "orange") then Some 3%nat
  else if bool_decide (c = "red") then Some 3%nat
  else if bool_decide (c = "yellow") then Some 3%nat
  else if bool_decide (c = "green") then Some 3%nat
  else if bool_decide (c = "blue") then Some 2%nat
  else None.

(** A run of calls to one buy method on the same player; as in Python, the
    first call that raises ends the run. *)
Fixpoint buy_all (buy : loc → string → M unit) (calls : list (loc * string))
  : M unit :=
  match calls with
  | [] => ret tt
  | (d, road_name) :: rest => buy d road_name ;;; buy_all buy rest
  end.

(** No brown road dictionary names [who] as its owner. *)
Definition no_brown_owned (who : string) (rs : loc → Road) : Prop :=
  ∀ l, color (rs l) = "brown" → belongs_to (rs l) ≠ Some who.

(** A buy method that never changes the colour of a road and writes to no
    road dictionary but the one it is given. *)
Definition keeps_other_roads (buy : loc → string → M unit) : Prop :=
  ∀ d road_name st l,
    color (roads (buy d road_name st).2 l) = color (roads st l)
    ∧ (l ≠ d → roads (buy d road_name st).2 l = roads st l).

(** The buy methods of the no-brown player: the decorator applied to such a
    method, or one of the two copies. *)
Definition no_brown_variant (buy : loc → string → M unit) : Prop :=
  (∃ base, keeps_other_roads base ∧ buy = modify_buy base) ∨ copied_buy buy.


(** ** The imported method and its decorated form *)

(** The count meets or exceeds the threshold of the colour. *)
Definition meets_threshold (c : string) (n : nat) : bool :=
  match threshold c with
  | Some required => bool_decide (required ≤ n)%nat
  | None => false
  end.

(** Modelled from the spec: [Player.buy] of [monosim.player], the method that
    the notebook imports, decorates and copies but does not define. Section
    4.1 of the spec gives its contract: it fails with the insufficient-funds
    error when the player's cash is below the price, and otherwise debits the
    player, credits the bank, sets the owner, appends the road to the owned
    list, starts its improvements at (0, 0) and adds its mortgage value to
    the mortgageable total; it then counts the player's owned roads of the
    new road's colour and marks the colour when the count meets or exceeds
    the threshold of the table. No other failure is part of the contract. *)
Definition Player_buy (dict_road_info : loc) (road_name : string) : M unit :=
  let* road_price := getitem_price dict_road_info in
  let* cash := read (λ st, _cash (self st)) in
  (if bool_decide (cash < road_price)
   then let* name := read (λ st, _name (self st)) in
        raise (not_enough_money name)
   else ret tt) ;;;
  update (on_bank (λ cash, cash + road_price)) ;;;
  update (on_self (λ p, set_cash (_cash p - road_price) p)) ;;;
  let* name := read (λ st, _name (self st)) in
  update (on_road dict_road_info (set_belongs_to (Some name))) ;;;
  update (on_self (λ p,
    set_list_owned_roads (_list_owned_roads p ++ [road_name]) p)) ;;;
  update (on_self (λ p,
    set_dict_owned_houses_hotels
      (<[road_name := (0, 0)]> (_dict_owned_houses_hotels p)) p)) ;;;
  let* mortgage := getitem_mortgage_value dict_road_info in
  update (on_self (λ p,
    set_properties_total_mortgageable_amount
      (_properties_total_mortgageable_amount p + mortgage) p)) ;;;
  let* color := getitem_color dict_road_info in
  let* count :=
    read (λ st, count_color st (_list_owned_roads (self st)) color) in
  if meets_threshold color count then mark_color color else ret tt.

(** [class Player_no_brown(Player): buy = modify_buy(Player.buy)]. *)
Definition Player_no_brown_decorated_buy : loc → string → M unit :=
  modify_buy Player_buy.


(** ** The trial loop *)

(** The two player objects of a trial, under the names of the variables
    that hold them. *)
Inductive slot := player1 | player2.

Global Instance slot_eq_dec : EqDecision slot.
Proof. solve_decision. Defined.

(** What the trial loop uses and the notebook imports: the set-up of a game
    from a seed ([random.seed], the board tables, the two players and their
    introduction to each other), [random.shuffle] on the two-element list of
    players (whether it swapped the two, and the game with the random source
    advanced), and the methods [has_lost] and [play] and the attribute
    [_name] of a player. *)
Class Game (World : Type) := {
  new_game : Z → World;
  shuffle : World → bool * World;
  has_lost : slot → World → bool;
  play : slot → World → World;
  player_name : slot → World → string
}.

(** A call [player.play()], with the game in which it started. *)
Definition turn (World : Type) : Type := slot * World.

(** What one trial leaves behind: the turn order, the round counter, the
    game at the end, the calls to [play] round by round, and the tuple
    appended to [list_results]. *)
Record Trial (World : Type) := mkTrial {
  list_players : list slot;
  idx_count : Z;
  final : World;
  rounds : list (list (turn World));
  recorded : option (Z * string * string)
}.
Arguments mkTrial {World}.
Arguments list_players {World}.
Arguments idx_count {World}.
Arguments final {World}.
Arguments rounds {World}.
Arguments recorded {World}.

Definition inspect {A} (a : A) : {b | a = b} := exist _ a eq_refl.

Section TrialLoop.
Context {World : Type} `{Game World}.

(** [list_players = [player1, player2]] after [random.shuffle]. *)
Definition shuffled (swapped : bool) : list slot :=
  if swapped then [player2; player1] else [player1; player2].

(** [for player in list_players: player.play()]. *)
Fixpoint for_player_in (players : list slot) (w : World)
  : list (turn World) * World :=
  match players with
  | [] => ([], w)
  | player :: rest =>
      let '(turns, w') := for_player_in rest (play player w) in
      ((player, w) :: turns, w')
  end.

(** The condition of the [while] loop. *)
Definition goes_on (idx_count : Z) (w : World) : bool :=
  negb (has_lost player1 w) && negb (has_lost player2 w)
  && bool_decide (idx_count < 1000).

(** The [while] loop, from a value of [idx_count] on: the counter and the
    game when it stops, and the rounds played. *)
Equations? while_loop (players : list slot) (idx_count : Z) (w : World)
  : Z * World * list (list (turn World))
  by wf (Z.to_nat (1000 - idx_count)) lt :=
  while_loop players idx_count w with inspect (goes_on idx_count w) => {
    | exist _ true _ =>
        let '(turns, w') := for_player_in players w in
        let '(n, w'', played) := while_loop players (idx_count + 1) w' in
        (n, w'', turns :: played);
    | exist _ false _ => (idx_count, w, []) }.
Proof.
  unfold goes_on in *.
  repeat match goal with
         | E : _ && _ = true |- _ => apply andb_prop in E as [? ?]
         end.
  case_bool_decide; [lia | done].
Qed.

(** The label appended after the loop. *)
Definition lost_label (w : World) : string :=
  if has_lost player1 w then "player1_lost"
  else if has_lost player2 w then "player2_lost"
  else "nobody_lost".

(** One iteration of [for seed in range(0, 10000)]. *)
Definition trial (seed : Z) : Trial World :=
  let '(swapped, w0) := shuffle (new_game seed) in
  let players := shuffled swapped in
  let '(n, w, played) := while_loop players 0 w0 in
  mkTrial players n w played
    ((λ first, (seed, lost_label w, player_name first w))
       <$> players !! 0%nat).

(** [list_results] after the seeds [0 .. n-1]; no list when an index
    into [list_players] fails. *)
Definition simulate (n : nat) : option (list (Z * string * string)) :=
  mapM (λ seed, recorded (trial (Z.of_nat seed))) (seq 0 n).
End TrialLoop.

(** ** The counts and the binomial test *)

(** The columns ['lost_player'] and ['starting_player'] of [df_res]. *)
Definition lost_player (row : Z * string * string) : string := row.1.2.
Definition starting_player (row : Z * string * string) : string := row.2.

(** [df_res[df_res.lost_player == label].shape[0]]. *)
Definition n_lost (label : string) (list_results : list (Z * string * string))
  : nat :=
  length (filter (λ row, lost_player row = label) list_results).

Definition n_lost_p1 := n_lost "player1_lost".
Definition n_lost_p2 := n_lost "player2_lost".

(** [df_res[(df_res.starting_player == name)
            & (df_res.lost_player != 'nobody_lost')].shape[0]]. *)
Definition count_start (name : string)
    (list_results : list (Z * string * string)) : nat :=
  length (filter (λ row, starting_player row = name
                         ∧ lost_player row ≠ "nobody_lost") list_results).

Section Significance.
(** [scipy.stats.binomtest], with its keyword arguments [k], [n], [p] and
    [alternative] in this order. *)
Context {BinomTestResult : Type}
        (binomtest : nat → nat → QArith_base.Q → string → BinomTestResult).

(** [binomtest(k=n_lost_p1, n=n_lost_p1+n_lost_p2, p=1/2,
    alternative='two-sided')]. *)
Definition significance (list_results : list (Z * string * string))
  : BinomTestResult :=
  binomtest (n_lost_p1 list_results)
    (n_lost_p1 list_results + n_lost_p2 list_results)%nat
    (QArith_base.Qmake 1 2) "two-sided".
End Significance.

(** The inputs of the test as the spec words them: [k] counts the trials
    labelled [player1_lost], [n] those labelled [player1_lost] or
    [player2_lost]; a trial with any other label adds to neither. *)
Fixpoint test_inputs (list_results : list (Z * string * string))
  : nat * nat :=
  match list_results with
  | [] => (0%nat, 0%nat)
  | (_, label, _) :: rest =>
      let '(k, n) := test_inputs rest in
      if bool_decide (label = "player1_lost") then (S k, S n)
      else if bool_decide (label = "player2_lost") then (k, S n)
      else (k, n)
  end.

(** The three labels a trial can record. *)
Definition outcome_label (label : string) : Prop :=
  label = "player1_lost" ∨ label = "player2_lost" ∨ label = "nobody_lost".

(** ** An example game *)

(** A game reduced to cash: every turn costs the player who takes it 100,
    and a player has lost once the cash is negative. Player 1 starts with 50
    and player 2 with 150 plus the seed; the shuffle keeps the order for an
    even seed. *)
Record Purse := mkPurse { cash1 : Z; cash2 : Z }.

Global Instance purse_game : Game Purse := {|
  new_game seed := mkPurse 50 (150 + seed);
  shuffle w := (Z.odd (cash2 w), w);
  has_lost s w :=
    match s with
    | player1 => bool_decide (cash1 w < 0)
    | player2 => bool_decide (cash2 w < 0)
    end;
  play s w :=
    match s with
    | player1 => mkPurse (cash1 w - 100) (cash2 w)
    | player2 => mkPurse (cash1 w) (cash2 w - 100)
    end;
  player_name s _ :=
    match s with
    | player1 => "player1"
    | player2 => "player2"
    end
|}.

(** ** Vocabulary for the statements about the trial loop *)

Section TrialVocabulary.
Context {World : Type} `{Game World}.

(** The runs of the [while] loop as a relation: from a counter and a game,
    the rounds played and the counter and game at the end. *)
Inductive plays (players : list slot)
  : Z → World → list (list (turn World)) → Z → World → Prop :=
| plays_stop i w :
    goes_on i w = false →
    plays players i w [] i w
| plays_round i w turns w' played n w'' :
    goes_on i w = true →
    for_player_in players w = (turns, w') →
    plays players (i + 1) w' played n w'' →
    plays players i w (turns :: played) n w''.

(** A full round: the first mover's turn, then the second mover's. *)
Definition full_round (first second : slot) (w : World) : World :=
  play second (play first w).

(** The game at the start of round [j], counting from 0. *)
Definition boundary (first second : slot) (j : nat) (w : World) : World :=
  Nat.iter j (full_round first second) w.

(** [k] rounds of two turns each, played without a look at [has_lost]. *)
Fixpoint rounds_from (first second : slot) (k : nat) (w : World)
  : list (list (turn World)) :=
  match k with
  | O => []
  | S k' =>
      [(first, w); (second, play first w)]
      :: rounds_from first second k' (full_round first second w)
  end.

(** No player has lost in [w]. *)
Definition both_solvent (w : World) : Prop :=
  has_lost player1 w = false ∧ has_lost player2 w = false.


(** A round that begins in a game where no player has lost. *)
Definition starts_solvent (round : list (turn World)) : Prop :=
  match round with
  | [] => False
  | t :: _ => both_solvent t.2
  end.
End TrialVocabulary.

Section TrialStart.
Context {World : Type} `{Game World}.

(** Who moves first and who moves second in the trial of a seed, and the
    game in which its first round starts. *)
Definition first_mover (seed : Z) : slot :=
  if (shuffle (new_game seed)).1 then player2 else player1.
Definition second_mover (seed : Z) : slot :=
  if (shuffle (new_game seed)).1 then player1 else player2.
Definition start (seed : Z) : World := (shuffle (new_game seed)).2.
End TrialStart.

(** ** The running counts of the plots *)

(** [range(0, stop, step)]: the multiples of [step] below [stop]; a zero
    step is a [ValueError]. *)
Definition range_from_0 (stop step : nat) : option (list nat) :=
  match step with
  | O => None
  | S _ => Some ((λ i, i * step)%nat <$> seq 0 ((stop + step - 1) / step))
  end.

(** The body of the aggregation loop: the counts over [df_res.iloc[:seed]],
    a win of one player being a loss of the other. *)
Definition snapshot (list_results : list (Z * string * string)) (seed : nat)
  : nat * nat * nat * nat :=
  let df_tmp := take seed list_results in
  let n_win_p1 := n_lost "player2_lost" df_tmp in
  let n_win_p2 := n_lost "player1_lost" df_tmp in
  let n_nobody_lost := n_lost "nobody_lost" df_tmp in
  (seed, n_win_p1, n_win_p2, n_nobody_lost).

(** [list_agg] after [for seed in range(0, stop, step)]; the notebook runs it
    with [stop] 10000 and [step] 1000 (cell 7) or 100 (cell 12). *)
Definition list_agg (stop step : nat)
    (list_results : list (Z * string * string))
  : option (list (nat * nat * nat * nat)) :=
  match range_from_0 stop step with
  | Some seeds => Some (snapshot list_results <$> seeds)
  | None => None
  end.

(** The columns of a row of [df_agg]. *)
Definition agg_seed (row : nat * nat * nat * nat) : nat := row.1.1.1.
Definition agg_win_p1 (row : nat * nat * nat * nat) : nat := row.1.1.2.
Definition agg_win_p2 (row : nat * nat * nat * nat) : nat := row.1.2.
Definition agg_nobody_lost (row : nat * nat * nat * nat) : nat := row.2.

(** ** Vocabulary for purchase histories *)

(** The calls name each road by the key under which the table [table] holds
    the dictionary that is passed along, as a caller does that looks the
    dictionary up by the road name. *)
Definition by_name (table : gmap string loc) (calls : list (loc * string))
  : Prop :=
  Forall (λ call, table !! call.2 = Some call.1) calls.

(** Every owned road name is a key of the player's road table. *)
Definition known_roads (st : State) : Prop :=
  Forall (λ road, is_Some (_dict_roads (self st) !! road))
    (_list_owned_roads (self st)).

(** A colour is marked exactly when the owned names of that colour reach its
    threshold. *)
Definition monopolies_agree (st : State) : Prop :=
  ∀ c, _dict_owned_colors (self st) !! c = Some true
       ↔ ∃ k, threshold c = Some k
              ∧ (k ≤ count_color st (_list_owned_roads (self st)) c)%nat.

(** The mortgage value of the road a name stands for, and the sum over a
    list of names; a name that is no key counts for nothing. *)
Definition mortgage_of_name (st : State) (road : string) : Z :=
  match _dict_roads (self st) !! road with
  | Some l => mortgage_value (roads st l)
  | None => 0
  end.

Definition mortgage_sum (st : State) (owned : list string) : Z :=
  foldr (λ road acc, mortgage_of_name st road + acc) 0 owned.

(** Every owned name that is a key of the table stands for a road that
    names the player as its owner. *)
Definition owns_listed (st : State) : Prop :=
  ∀ road l, road ∈ _list_owned_roads (self st) →
            _dict_roads (self st) !! road = Some l →
            belongs_to (roads st l) = Some (_name (self st)).

(** The owned road names are the keys of the improvements dictionary. *)
Definition improvements_cover (st : State) : Prop :=
  ∀ road, road ∈ _list_owned_roads (self st)
          ↔ is_Some (_dict_owned_houses_hotels (self st) !! road).

(** ** Vocabulary for turns after a bankruptcy *)

Section Bankruptcy.
Context {World : Type} `{Game World}.

(** No turn of any player brings a player who has lost back. *)
Definition bankruptcy_is_final : Prop :=
  ∀ s s' w, has_lost s w = true → has_lost s (play s' w) = true.

(** The players keep the names they were constructed with. *)
Definition names_are_fixed : Prop :=
  ∀ w, player_name player1 w = "player1" ∧ player_name player2 w = "player2".
End Bankruptcy.

(** A second example game, with the same turns as [purse_game]: player 1
    starts with 250 plus the seed and player 2 with 150, and the shuffle
    keeps the order. *)
Record Wallet := mkWallet { wallet1 : Z; wallet2 : Z }.

Global Instance wallet_game : Game Wallet := {|
  new_game seed := mkWallet (250 + seed) 150;
  shuffle w := (false, w);
  has_lost s w :=
    match s with
    | player1 => bool_decide (wallet1 w < 0)
    | player2 => bool_decide (wallet2 w < 0)
    end;
  play s w :=
    match s with
    | player1 => mkWallet (wallet1 w - 100) (wallet2 w)
    | player2 => mkWallet (wallet1 w) (wallet2 w - 100)
    end;
  player_name s _ :=
    match s with
    | player1 => "player1"
    | player2 => "player2"
    end
|}.
(** ** Running the buy methods *)

Lemma for_road_in_state owned c n st : (for_road_in owned c n st).2 = st.
Proof.
  revert n. induction owned as [|road rest IH]; intros n; simpl; [done|].
  unfold bind at 1, dict_roads_getitem.
  destruct (_dict_roads (self st) !! road); [|done].
  unfold bind, getitem_color, read. apply IH.
Qed.

Lemma for_road_in_returned owned c n st :
  Forall (λ road, is_Some (_dict_roads (self st) !! road)) owned →
  for_road_in owned c n st = (Returned (n + count_color st owned c)%nat, st).
Proof.
  revert n. induction owned as [|road rest IH]; intros n Hkeys; simpl.
  - unfold ret, count_color. simpl. by rewrite Nat.add_0_r.
  - inversion Hkeys as [|? ? [l Hl] Hrest]; subst.
    unfold bind at 1, dict_roads_getitem. rewrite Hl.
    unfold bind, getitem_color, read. rewrite IH by done.
    unfold count_color. rewrite filter_cons.
    assert (Hroad : color_of_name st road = Some (color (roads st l)))
      by (unfold color_of_name; by rewrite Hl).
    case_bool_decide as Hc; case_decide as Hd; simpl.
    + do 2 f_equal. lia.
    + exfalso. apply Hd. by rewrite Hroad, Hc.
    + exfalso. apply Hc. rewrite Hroad in Hd. by inversion Hd.
    + done.
Qed.

Lemma for_road_in_raised owned c n st :
  ¬ Forall (λ road, is_Some (_dict_roads (self st) !! road)) owned →
  ∃ key, for_road_in owned c n st = (Raised (KeyError key), st)
         ∧ key ∈ owned ∧ _dict_roads (self st) !! key = None.
Proof.
  revert n. induction owned as [|road rest IH]; intros n Hkeys; simpl.
  - destruct Hkeys. constructor.
  - unfold bind at 1, dict_roads_getitem.
    destruct (_dict_roads (self st) !! road) as [l|] eqn:Hl.
    + unfold bind, getitem_color, read.
      destruct (IH (if bool_decide (c = color (roads st l)) then S n else n))
        as (key & Hrun & Hin & Hnone).
      { intros Hrest. apply Hkeys. constructor; [by rewrite Hl | done]. }
      exists key. split_and!; [done | by right | done].
    + exists road. split_and!; [done | by left | done].
Qed.

(** Runs one copy of the method body up to the counting loop and compares
    what is left with [after_purchase]. *)
Ltac run_purchase d road_name st :=
  unfold after_purchase;
  unfold bind at 1; unfold getitem_price at 1, read at 1;
  unfold bind at 1; unfold read at 1;
  unfold bind at 1;
  rewrite bool_decide_eq_false_2 by lia;
  unfold ret at 1;
  unfold bind, update, read, getitem_mortgage_value, getitem_color; simpl;
  rewrite !fn_lookup_insert; simpl;
  match goal with
  | |- context [for_road_in ?o ?c 0%nat ?s] =>
      change s with (acquired d road_name st);
      pose proof (for_road_in_state o c 0%nat (acquired d road_name st));
      destruct (for_road_in o c 0%nat (acquired d road_name st)) as [[n|e] st']
  end;
  simpl in *; subst; [|done];
  unfold chain_marks, mark_color, marked, update, ret;
  repeat (case_bool_decide; simpl; try done).

Lemma Player_no_brown_buy_run d road_name st :
  color (roads st d) ≠ "brown" →
  price (roads st d) ≤ _cash (self st) →
  Player_no_brown_buy d road_name st = after_purchase d road_name st.
Proof.
  intros Hcolor Hcash. unfold Player_no_brown_buy.
  unfold bind at 1. unfold getitem_color at 1, read at 1.
  rewrite bool_decide_eq_false_2 by done.
  run_purchase d road_name st.
Qed.

Lemma buy_new_run d road_name st :
  color (roads st d) ≠ "brown" →
  price (roads st d) ≤ _cash (self st) →
  buy_new d road_name st = after_purchase d road_name st.
Proof.
  intros Hcolor Hcash. unfold buy_new.
  unfold bind at 1. unfold getitem_color at 1, read at 1.
  rewrite bool_decide_eq_false_2 by done.
  run_purchase d road_name st.
Qed.

Lemma copied_buy_run buy d road_name st :
  copied_buy buy →
  color (roads st d) ≠ "brown" →
  price (roads st d) ≤ _cash (self st) →
  buy d road_name st = after_purchase d road_name st.
Proof.
  intros [-> | ->];
    [apply Player_no_brown_buy_run | apply buy_new_run].
Qed.

Lemma copied_buy_refuses buy d road_name st :
  copied_buy buy →
  color (roads st d) ≠ "brown" →
  _cash (self st) < price (roads st d) →
  buy d road_name st = (Raised (not_enough_money (_name (self st))), st).
Proof.
  intros [-> | ->] Hcolor Hcash.
  - unfold Player_no_brown_buy.
    unfold bind at 1. unfold getitem_color at 1, read at 1.
    rewrite bool_decide_eq_false_2 by done.
    unfold bind at 1. unfold getitem_price at 1, read at 1.
    unfold bind at 1. unfold read at 1. unfold bind at 1.
    by rewrite bool_decide_eq_true_2 by done.
  - unfold buy_new.
    unfold bind at 1. unfold getitem_color at 1, read at 1.
    rewrite bool_decide_eq_false_2 by done.
    unfold bind at 1. unfold getitem_price at 1, read at 1.
    unfold bind at 1. unfold read at 1. unfold bind at 1.
    by rewrite bool_decide_eq_true_2 by done.
Qed.

Lemma copied_buy_declines buy d road_name st :
  copied_buy buy →
  color (roads st d) = "brown" →
  buy d road_name st = (Returned tt, st).
Proof.
  intros [-> | ->] Hcolor.
  - unfold Player_no_brown_buy, bind, getitem_color, read.
    by rewrite bool_decide_eq_true_2 by done.
  - unfold buy_new, bind, getitem_color, read.
    by rewrite bool_decide_eq_true_2 by done.
Qed.

Lemma modify_buy_declines base d road_name st :
  color (roads st d) = "brown" →
  modify_buy base d road_name st = (Returned tt, st).
Proof.
  intros Hcolor. unfold modify_buy, bind, getitem_color, read.
  by rewrite bool_decide_eq_true_2 by done.
Qed.

Lemma modify_buy_calls base d road_name st :
  color (roads st d) ≠ "brown" →
  modify_buy base d road_name st = base d road_name st.
Proof.
  intros Hcolor. unfold modify_buy, bind, getitem_color, read.
  by rewrite bool_decide_eq_false_2 by done.
Qed.

(** The state in which [after_purchase] ends is [acquired], with the colour
    marked or not. *)
Lemma after_purchase_state d road_name st :
  (after_purchase d road_name st).2 = acquired d road_name st
  ∨ (after_purchase d road_name st).2
    = marked (color (roads st d)) (acquired d road_name st).
Proof.
  unfold after_purchase. simpl.
  destruct (for_road_in _ _ _ _) as [[n|e] st']; simpl; [|by left].
  destruct (chain_marks _ _); [by right | by left].
Qed.


(** Every call to a copy of the method is a decline, a refusal or a
    purchase. *)
Lemma copied_buy_cases buy d road_name st :
  copied_buy buy →
  buy d road_name st = (Returned tt, st)
  ∨ buy d road_name st = (Raised (not_enough_money (_name (self st))), st)
  ∨ buy d road_name st = after_purchase d road_name st.
Proof.
  intros Hbuy.
  destruct (decide (color (roads st d) = "brown")) as [Hbrown|Hcolor].
  { left. by apply copied_buy_declines. }
  destruct (decide (_cash (self st) < price (roads st d))) as [Hpoor|Hrich].
  { right; left. by apply copied_buy_refuses. }
  right; right. apply copied_buy_run; [done | done | lia].
Qed.


Lemma after_purchase_complete d road_name st :
  Forall (λ road, is_Some (_dict_roads (self st) !! road))
    (_list_owned_roads (self st) ++ [road_name]) →
  let st1 := acquired d road_name st in
  let c := color (roads st d) in
  after_purchase d road_name st
  = (Returned tt,
     if chain_marks c (count_color st1 (_list_owned_roads (self st1)) c)
     then marked c st1 else st1).
Proof.
  intros Hkeys. unfold after_purchase. cbv zeta.
  by rewrite (for_road_in_returned _ _ 0%nat (acquired d road_name st) Hkeys).
Qed.

Ltac eval_string_tests :=
  repeat match goal with
         | |- context [@bool_decide (@eq string ?a ?b) ?d] =>
             let v := eval vm_compute in (@bool_decide (@eq string a b) d) in
             change (@bool_decide (@eq string a b) d) with v
         end.

Lemma chain_marks_threshold c n :
  chain_marks c n = bool_decide (threshold c = Some n).
Proof.
  unfold chain_marks, threshold.
  repeat
    match goal with
    | |- context [bool_decide (c = ?s)] =>
        destruct (decide (c = s)) as [-> | ?];
        [ eval_string_tests; cbn; rewrite ?orb_false_r;
          repeat case_bool_decide; congruence
        | rewrite !(bool_decide_eq_false_2 (c = s)) by done; simpl ]
    end.
  done.
Qed.

(** The owned-colours map after any call to a copy of the method is the map
    before, with at most the road's colour set to [True]. *)
Lemma copied_buy_owned_colors buy d road_name st :
  copied_buy buy →
  _dict_owned_colors (self (buy d road_name st).2)
  = _dict_owned_colors (self st)
  ∨ _dict_owned_colors (self (buy d road_name st).2)
    = <[color (roads st d) := true]> (_dict_owned_colors (self st)).
Proof.
  intros Hbuy.
  destruct (copied_buy_cases buy d road_name st Hbuy) as [-> | [-> | ->]];
    [by left | by left |].
  destruct (after_purchase_state d road_name st) as [-> | ->];
    [by left | by right].
Qed.

Lemma copied_buy_keeps_other_roads buy :
  copied_buy buy → keeps_other_roads buy.
Proof.
  intros Hbuy d road_name st l.
  destruct (copied_buy_cases buy d road_name st Hbuy) as [-> | [-> | ->]];
    [done | done |].
  assert (Hroads : roads (after_purchase d road_name st).2
                   = <[d := set_belongs_to (Some (_name (self st)))
                              (roads st d)]> (roads st))
    by (destruct (after_purchase_state d road_name st) as [-> | ->]; done).
  rewrite Hroads. split.
  - destruct (decide (d = l)) as [<- | Hne].
    + by rewrite fn_lookup_insert.
    + by rewrite fn_lookup_insert_ne.
  - intros Hne. by rewrite fn_lookup_insert_ne.
Qed.

Lemma modify_buy_keeps_other_roads base :
  keeps_other_roads base → keeps_other_roads (modify_buy base).
Proof.
  intros Hbase d road_name st l.
  destruct (decide (color (roads st d) = "brown")) as [Hbrown|Hcolor].
  - by rewrite modify_buy_declines.
  - rewrite modify_buy_calls by done. apply Hbase.
Qed.

Lemma no_brown_variant_declines buy d road_name st :
  no_brown_variant buy →
  color (roads st d) = "brown" →
  buy d road_name st = (Returned tt, st).
Proof.
  intros [(base & _ & ->) | Hbuy] Hbrown.
  - by apply modify_buy_declines.
  - by apply copied_buy_declines.
Qed.

Lemma no_brown_variant_keeps_other_roads buy :
  no_brown_variant buy → keeps_other_roads buy.
Proof.
  intros [(base & Hbase & ->) | Hbuy].
  - by apply modify_buy_keeps_other_roads.
  - by apply copied_buy_keeps_other_roads.
Qed.

(** One call of a no-brown buy method leaves every brown road with the
    owner it had. *)
Lemma no_brown_variant_step buy d road_name st who :
  no_brown_variant buy →
  no_brown_owned who (roads st) →
  no_brown_owned who (roads (buy d road_name st).2).
Proof.
  intros Hbuy Hinv l Hbrown.
  destruct (no_brown_variant_keeps_other_roads buy Hbuy d road_name st l)
    as [Hcol Hother].
  rewrite Hcol in Hbrown.
  destruct (decide (l = d)) as [-> | Hne].
  - rewrite (no_brown_variant_declines buy d road_name st Hbuy Hbrown).
    by apply Hinv.
  - rewrite (Hother Hne). by apply Hinv.
Qed.

(** An invariant of single calls is an invariant of runs of calls. *)
Lemma buy_all_invariant (P : State → Prop) buy calls st :
  (∀ d road_name st, P st → P (buy d road_name st).2) →
  P st → P (buy_all buy calls st).2.
Proof.
  intros Hstep. revert st.
  induction calls as [|[d road_name] rest IH]; intros st HP; simpl; [done|].
  unfold bind.
  pose proof (Hstep d road_name st HP) as HP'.
  destruct (buy d road_name st) as [[[]|e] st']; simpl in *; [|done].
  by apply IH.
Qed.

(** The imported method, as modelled: a refusal, or a purchase that returns
    with the colour marked when the count meets the threshold. *)
Lemma Player_buy_refuses d road_name st :
  _cash (self st) < price (roads st d) →
  Player_buy d road_name st
  = (Raised (not_enough_money (_name (self st))), st).
Proof.
  intros Hcash. unfold Player_buy.
  unfold bind at 1. unfold getitem_price at 1, read at 1.
  unfold bind at 1. unfold read at 1. unfold bind at 1.
  by rewrite bool_decide_eq_true_2 by done.
Qed.

Lemma Player_buy_run d road_name st :
  price (roads st d) ≤ _cash (self st) →
  let st1 := acquired d road_name st in
  let c := color (roads st d) in
  Player_buy d road_name st
  = (Returned tt,
     if meets_threshold c (count_color st1 (_list_owned_roads (self st1)) c)
     then marked c st1 else st1).
Proof.
  intros Hcash. cbv zeta. unfold Player_buy.
  unfold bind at 1. unfold getitem_price at 1, read at 1.
  unfold bind at 1. unfold read at 1. unfold bind at 1.
  rewrite bool_decide_eq_false_2 by lia.
  unfold ret at 1.
  unfold bind, update, read, getitem_mortgage_value, getitem_color; simpl.
  rewrite !fn_lookup_insert; simpl.
  match goal with
  | |- context [count_color ?s _ _] =>
      change s with (acquired d road_name st)
  end.
  change (_list_owned_roads (self st) ++ [road_name])%list
    with (_list_owned_roads (self (acquired d road_name st))).
  by destruct (meets_threshold _ _).
Qed.

Lemma Player_buy_keeps_other_roads : keeps_other_roads Player_buy.
Proof.
  intros d road_name st l.
  destruct (decide (_cash (self st) < price (roads st d))) as [Hpoor|Hrich].
  { by rewrite Player_buy_refuses. }
  rewrite Player_buy_run by lia. cbn [snd].
  assert (Hroads : ∀ b : bool,
            roads (if b then marked (color (roads st d))
                               (acquired d road_name st)
                   else acquired d road_name st)
            = <[d := set_belongs_to (Some (_name (self st)))
                       (roads st d)]> (roads st))
    by (by intros []).
  rewrite Hroads. split.
  - destruct (decide (d = l)) as [<- | Hne].
    + by rewrite fn_lookup_insert.
    + by rewrite fn_lookup_insert_ne.
  - intros Hne. by rewrite fn_lookup_insert_ne.
Qed.

Lemma decorated_is_no_brown_variant :
  no_brown_variant Player_no_brown_decorated_buy.
Proof.
  left. exists Player_buy. split; [apply Player_buy_keeps_other_roads | done].
Qed.

(** ** The buy methods: purchase, refusal, monopolies *)

(** C1. A call to either written-out copy of [buy] on a road that is not
    brown, by a player whose cash is at least the price, takes the price from
    the player's cash and adds it to the bank's cash, names the player as the
    owner of the road, appends the road name to the owned-roads list, sets the
    road's (houses, hotels) pair to (0, 0) and adds the road's mortgage value
    to the player's mortgageable total; the cash of the bank, the buyer and
    the other players together is what it was. This holds whether or not the
    counting loop that follows raises. *)
Theorem buy_acquires buy d road_name st others :
  copied_buy buy →
  color (roads st d) ≠ "brown" →
  price (roads st d) ≤ _cash (self st) →
  let st' := (buy d road_name st).2 in
  _cash (self st') = _cash (self st) - price (roads st d)
  ∧ bank_cash st' = bank_cash st + price (roads st d)
  ∧ belongs_to (roads st' d) = Some (_name (self st))
  ∧ _list_owned_roads (self st')
    = (_list_owned_roads (self st) ++ [road_name])%list
  ∧ _dict_owned_houses_hotels (self st')
    = <[road_name := (0, 0)]> (_dict_owned_houses_hotels (self st))
  ∧ _properties_total_mortgageable_amount (self st')
    = _properties_total_mortgageable_amount (self st)
      + mortgage_value (roads st d)
  ∧ total_cash st' others = total_cash st others.
Proof.
  intros Hbuy Hcolor Hcash st'. subst st'.
  rewrite (copied_buy_run buy d road_name st Hbuy Hcolor Hcash).
  unfold total_cash.
  destruct (after_purchase_state d road_name st) as [-> | ->]; simpl;
    rewrite fn_lookup_insert; split_and!; try done; lia.
Qed.

Lemma buy_acquires_witness :
  let st := example_state 1000 in
  let st' := (Player_no_brown_buy 1%nat "boardwalk" st).2 in
  (copied_buy Player_no_brown_buy
   ∧ color (roads st 1%nat) ≠ "brown"
   ∧ price (roads st 1%nat) ≤ _cash (self st))
  ∧ _cash (self st') = 600
  ∧ bank_cash st' = 400
  ∧ belongs_to (roads st' 1%nat) = Some "player1"
  ∧ _list_owned_roads (self st') = ["boardwalk"]
  ∧ _dict_owned_houses_hotels (self st') !! "boardwalk" = Some (0, 0)
  ∧ _properties_total_mortgageable_amount (self st') = 200
  ∧ total_cash st' [example_player 1500] = 2500.
Proof.
  intros st st'.
  assert (H1 : copied_buy Player_no_brown_buy) by (by left).
  assert (H2 : color (roads st 1%nat) ≠ "brown") by (vm_compute; discriminate).
  assert (H3 : price (roads st 1%nat) ≤ _cash (self st))
    by (vm_compute; discriminate).
  split; [done|].
  destruct (buy_acquires Player_no_brown_buy 1%nat "boardwalk" st
              [example_player 1500] H1 H2 H3)
    as (E1 & E2 & E3 & E4 & E5 & E6 & E7).
  fold st' in E1, E2, E3, E4, E5, E6, E7.
  split_and!.
  - rewrite E1. reflexivity.
  - rewrite E2. reflexivity.
  - rewrite E3. reflexivity.
  - rewrite E4. reflexivity.
  - rewrite E5. apply lookup_insert_eq.
  - rewrite E6. reflexivity.
  - rewrite E7. reflexivity.
Defined.

(** C2. A call to either written-out copy of [buy] on a road that is not
    brown, by a player whose cash is below the price, raises the "does not
    have enough money" exception and leaves the whole state as it was: the
    road's owner, the player's cash and owned-roads list and the bank's
    cash. *)
Theorem buy_refuses buy d road_name st :
  copied_buy buy →
  color (roads st d) ≠ "brown" →
  _cash (self st) < price (roads st d) →
  buy d road_name st = (Raised (not_enough_money (_name (self st))), st).
Proof. apply copied_buy_refuses. Qed.

Lemma buy_refuses_witness :
  let st := example_state 50 in
  let out := buy_new 3%nat "the_angel_islington" st in
  (copied_buy buy_new
   ∧ color (roads st 3%nat) ≠ "brown"
   ∧ _cash (self st) = 50 ∧ price (roads st 3%nat) = 60)
  ∧ out.1 = Raised (Exception "Player player1 does not have enough money")
  ∧ belongs_to (roads out.2 3%nat) = None
  ∧ _cash (self out.2) = 50
  ∧ _list_owned_roads (self out.2) = []
  ∧ bank_cash out.2 = 0.
Proof.
  intros st out.
  assert (H1 : copied_buy buy_new) by (by right).
  assert (H2 : color (roads st 3%nat) ≠ "brown") by (vm_compute; discriminate).
  assert (H3 : _cash (self st) < price (roads st 3%nat)) by reflexivity.
  split; [done|].
  pose proof (buy_refuses buy_new 3%nat "the_angel_islington" st H1 H2 H3)
    as E.
  fold out in E. rewrite E. done.
Defined.




(** C6. A colour group that is marked complete for a player stays marked
    through any run of calls to either written-out copy of [buy]; and a call
    on a road of a colour that is already complete leaves the owned-colours
    map as it was, since the only assignment there is is of [True]. *)
Theorem complete_stays_complete buy calls d road_name st c :
  copied_buy buy →
  _dict_owned_colors (self st) !! c = Some true →
  _dict_owned_colors (self (buy_all buy calls st).2) !! c = Some true
  ∧ (color (roads st d) = c →
     _dict_owned_colors (self (buy d road_name st).2)
     = _dict_owned_colors (self st)).
Proof.
  intros Hbuy Hc. split.
  - apply (buy_all_invariant
             (λ s, _dict_owned_colors (self s) !! c = Some true)); [|done].
    intros d' road_name' s Hs.
    destruct (copied_buy_owned_colors buy d' road_name' s Hbuy) as [-> | ->];
      [done|].
    destruct (decide (color (roads s d') = c)) as [-> | Hne].
    + apply lookup_insert_eq.
    + by rewrite lookup_insert_ne.
  - intros <-.
    destruct (copied_buy_owned_colors buy d road_name st Hbuy) as [-> | ->];
      [done|].
    by apply insert_id.
Qed.

Lemma complete_stays_complete_witness :
  let st :=
    (buy_all buy_new [(0%nat, "park_place"); (1%nat, "boardwalk")]
       (example_state 2000)).2 in
  (copied_buy buy_new ∧ _dict_owned_colors (self st) !! "blue" = Some true)
  ∧ _dict_owned_colors
      (self (buy_all buy_new
               [(3%nat, "the_angel_islington"); (2%nat, "old_kent_road")]
               st).2) !! "blue" = Some true
  ∧ _dict_owned_colors (self (buy_new 1%nat "boardwalk" st).2)
    = _dict_owned_colors (self st).
Proof.
  intros st.
  assert (H1 : copied_buy buy_new) by (by right).
  assert (H2 : _dict_owned_colors (self st) !! "blue" = Some true)
    by (vm_compute; reflexivity).
  split; [done|].
  destruct (complete_stays_complete buy_new
              [(3%nat, "the_angel_islington"); (2%nat, "old_kent_road")]
              1%nat "boardwalk" st "blue" H1 H2) as [Hrun Hsame].
  split; [exact Hrun|].
  apply Hsame. vm_compute. reflexivity.
Defined.

(** C7. A brown road turns every buy method of the no-brown player (the
    decorator around any base method, and either written-out copy) into a
    call that returns without an exception and with the state untouched,
    whatever the player's cash; and through any run of calls to such a
    method, no brown road that was not owned by a given name comes to be
    owned by it. *)
Theorem brown_is_never_bought buy calls d road_name st who :
  no_brown_variant buy →
  (color (roads st d) = "brown" → buy d road_name st = (Returned tt, st))
  ∧ (no_brown_owned who (roads st) →
     no_brown_owned who (roads (buy_all buy calls st).2)).
Proof.
  intros Hbuy. split.
  - by apply no_brown_variant_declines.
  - apply (buy_all_invariant (λ s, no_brown_owned who (roads s))).
    intros d' road_name' s. by apply no_brown_variant_step.
Qed.

Lemma brown_is_never_bought_witness :
  let st := example_state 10 in
  let buy := modify_buy Player_no_brown_buy in
  let calls := [(2%nat, "old_kent_road"); (2%nat, "old_kent_road")] in
  (no_brown_variant buy
   ∧ color (roads st 2%nat) = "brown"
   ∧ _cash (self st) < price (roads st 2%nat)
   ∧ no_brown_owned "player1" (roads st))
  ∧ buy 2%nat "old_kent_road" st = (Returned tt, st)
  ∧ no_brown_owned "player1" (roads (buy_all buy calls st).2).
Proof.
  intros st buy calls.
  assert (H1 : no_brown_variant buy).
  { left. exists Player_no_brown_buy. split; [|done].
    apply copied_buy_keeps_other_roads. by left. }
  assert (H2 : color (roads st 2%nat) = "brown") by reflexivity.
  assert (H3 : no_brown_owned "player1" (roads st)).
  { intros l _. by destruct l as [|[|[|l]]]. }
  split; [split_and!; done|].
  destruct (brown_is_never_bought buy calls 2%nat "old_kent_road" st "player1"
              H1) as [Hdecl Hinv].
  split; [by apply Hdecl | by apply Hinv].
Defined.

(** ** Running the trial loop *)

Section TrialProofs.
Context {World : Type} `{Game World}.

Lemma while_loop_step players i w :
  while_loop players i w
  = if goes_on i w then
      let '(turns, w') := for_player_in players w in
      let '(n, w'', played) := while_loop players (i + 1) w' in
      (n, w'', turns :: played)
    else (i, w, []).
Proof.
  rewrite while_loop_equation_1.
  destruct (inspect (goes_on i w)) as [[] e]; simp while_loop;
    by rewrite e.
Qed.

Lemma goes_on_lt i w : goes_on i w = true → i < 1000.
Proof.
  unfold goes_on. intros E.
  apply andb_prop in E as [_ E]. by apply bool_decide_eq_true in E.
Qed.

Lemma goes_on_solvent i w : goes_on i w = true → both_solvent w.
Proof.
  unfold goes_on, both_solvent. intros E.
  apply andb_prop in E as [E _]. apply andb_prop in E as [E1 E2].
  by destruct (has_lost player1 w), (has_lost player2 w).
Qed.

(** The loop runs as [plays] describes; the induction is on the rounds
    that are left before the cap. *)
Lemma while_loop_plays players i w :
  plays players i w (while_loop players i w).2
    (while_loop players i w).1.1 (while_loop players i w).1.2.
Proof.
  remember (Z.to_nat (1000 - i)) as left eqn:Hleft.
  revert i w Hleft.
  induction left as [left IH] using lt_wf_ind; intros i w ->.
  rewrite while_loop_step.
  destruct (goes_on i w) eqn:E; [|by constructor].
  destruct (for_player_in players w) as [turns w'] eqn:Eround.
  pose proof (goes_on_lt _ _ E).
  specialize (IH (Z.to_nat (1000 - (i + 1))) ltac:(lia) (i + 1) w' eq_refl).
  destruct (while_loop players (i + 1) w') as [[n w''] played]; simpl in *.
  by econstructor.
Qed.

Lemma plays_counter players i w played n w' :
  plays players i w played n w' → n = i + Z.of_nat (length played).
Proof. induction 1; simpl; lia. Qed.

Lemma plays_end players i w played n w' :
  plays players i w played n w' → goes_on n w' = false.
Proof. by induction 1. Qed.


Lemma for_player_in_pair first second w :
  for_player_in [first; second] w
  = ([(first, w); (second, play first w)], full_round first second w).
Proof. done. Qed.

Lemma boundary_S first second j w :
  boundary first second (S j) w
  = boundary first second j (full_round first second w).
Proof. unfold boundary. apply Nat.iter_succ_r. Qed.

Lemma plays_pair first second i w played n w' :
  plays [first; second] i w played n w' →
  played = rounds_from first second (length played) w
  ∧ w' = boundary first second (length played) w
  ∧ Forall (λ j, goes_on (i + Z.of_nat j) (boundary first second j w) = true)
      (seq 0 (length played)).
Proof.
  induction 1 as [|i w turns w' played n w'' E Hround _ IH]; [done|].
  rewrite for_player_in_pair in Hround. injection Hround as <- <-.
  destruct IH as (IH1 & IH2 & IH3).
  change (length (?t :: played)) with (S (length played)). split_and!.
  - simpl. by rewrite <- IH1.
  - by rewrite boundary_S.
  - simpl seq. constructor; [by rewrite Z.add_0_r|].
    rewrite <- fmap_S_seq. apply Forall_fmap.
    revert IH3. apply Forall_impl. intros j Hj. unfold compose. rewrite boundary_S.
    by replace (i + Z.of_nat (S j)) with (i + 1 + Z.of_nat j) by lia.
Qed.

Lemma shuffled_pair swapped :
  shuffled swapped
  = [if swapped then player2 else player1;
     if swapped then player1 else player2].
Proof. by destruct swapped. Qed.
End TrialProofs.

Section TrialFacts.
Context {World : Type} `{Game World}.

Lemma plays_cap players i w played n w' :
  plays players i w played n w' → i ≤ 1000 → n ≤ 1000.
Proof.
  induction 1 as [|i w turns w' played n w'' E _ _ IH]; [done|].
  intros _. apply IH. pose proof (goes_on_lt _ _ E). lia.
Qed.

Lemma trial_plays seed :
  list_players (trial seed) = [first_mover seed; second_mover seed]
  ∧ plays [first_mover seed; second_mover seed] 0 (start seed)
      (rounds (trial seed)) (idx_count (trial seed)) (final (trial seed))
  ∧ recorded (trial seed)
    = Some (seed, lost_label (final (trial seed)),
            player_name (first_mover seed) (final (trial seed))).
Proof.
  unfold trial, first_mover, second_mover, start.
  destruct (shuffle (new_game seed)) as [swapped w0]; simpl.
  pose proof (while_loop_plays (shuffled swapped) 0 w0) as Hplays.
  destruct (while_loop (shuffled swapped) 0 w0) as [[n w] played].
  simpl in *. rewrite shuffled_pair in *. done.
Qed.

Lemma movers_differ seed : first_mover seed ≠ second_mover seed.
Proof.
  unfold first_mover, second_mover.
  by destruct (shuffle (new_game seed)).1.
Qed.

Lemma trial_end seed :
  has_lost player1 (final (trial seed)) = true
  ∨ has_lost player2 (final (trial seed)) = true
  ∨ idx_count (trial seed) = 1000.
Proof.
  destruct (trial_plays seed) as (_ & Hplays & _).
  pose proof (plays_end _ _ _ _ _ _ Hplays) as Hend.
  pose proof (plays_cap _ _ _ _ _ _ Hplays ltac:(lia)) as Hcap.
  unfold goes_on in Hend.
  destruct (has_lost player1 _); [by left|].
  destruct (has_lost player2 _); [by right; left|].
  right; right. simpl in Hend. apply bool_decide_eq_false in Hend. lia.
Qed.

Lemma lost_label_cases w :
  (lost_label w = "player1_lost" ∧ has_lost player1 w = true)
  ∨ (lost_label w = "player2_lost"
     ∧ has_lost player1 w = false ∧ has_lost player2 w = true)
  ∨ (lost_label w = "nobody_lost"
     ∧ has_lost player1 w = false ∧ has_lost player2 w = false).
Proof.
  unfold lost_label.
  destruct (has_lost player1 w); [by left|].
  destruct (has_lost player2 w); [by right; left | by right; right].
Qed.

Lemma simulate_rows n :
  simulate n
  = Some ((λ seed : nat,
             (Z.of_nat seed, lost_label (final (trial (Z.of_nat seed))),
              player_name (first_mover (Z.of_nat seed))
                (final (trial (Z.of_nat seed))))) <$> seq 0 n).
Proof.
  unfold simulate. apply mapM_Some_2.
  apply Forall2_fmap_r, Forall_Forall2_diag, Forall_forall.
  intros seed _. by destruct (trial_plays (Z.of_nat seed)) as (_ & _ & ->).
Qed.
End TrialFacts.

(** ** The trial loop: when [has_lost] is looked at, and what is recorded *)


Section TrialClaims.
Context {World : Type} `{Game World}.


(** C5. A trial records one tuple: its seed, one of the labels
    [player1_lost], [player2_lost] and [nobody_lost], and the name of the
    player at the head of the shuffled list. The label is [player1_lost]
    whenever player 1 has lost at the end, also when player 2 has lost as
    well; it is [nobody_lost] when neither has lost, and then 1000 full
    rounds were played. The results of the seeds below [n] hold one row
    per seed, in order, each with one of the three labels. *)
Theorem trial_records_one_outcome seed n :
  (∃ label,
     recorded (trial seed)
     = Some (seed, label,
             player_name (first_mover seed) (final (trial seed)))
     ∧ list_players (trial seed) !! 0%nat = Some (first_mover seed)
     ∧ ((label = "player1_lost"
         ∧ has_lost player1 (final (trial seed)) = true)
        ∨ (label = "player2_lost"
           ∧ has_lost player1 (final (trial seed)) = false
           ∧ has_lost player2 (final (trial seed)) = true)
        ∨ (label = "nobody_lost"
           ∧ has_lost player1 (final (trial seed)) = false
           ∧ has_lost player2 (final (trial seed)) = false
           ∧ idx_count (trial seed) = 1000
           ∧ length (rounds (trial seed)) = 1000%nat)))
  ∧ ∃ rows,
      simulate n = Some rows
      ∧ (λ row : Z * string * string, row.1.1) <$> rows
        = Z.of_nat <$> seq 0 n
      ∧ Forall (λ row, outcome_label (lost_player row)) rows.
Proof.
  split.
  - destruct (trial_plays seed) as (Hplayers & Hplays & Hrec).
    exists (lost_label (final (trial seed))).
    split_and!; [done | by rewrite Hplayers |].
    destruct (lost_label_cases (final (trial seed)))
      as [? | [? | (Hlabel & H1 & H2)]]; [by left | by right; left |].
    right; right. split_and!; try done.
    + destruct (trial_end seed) as [? | [? | ?]]; [congruence.. | done].
    + pose proof (plays_counter _ _ _ _ _ _ Hplays) as Hcount.
      destruct (trial_end seed) as [? | [? | Hcap]]; [congruence.. | lia].
  - eexists. split; [apply simulate_rows|]. split.
    + rewrite <- list_fmap_compose. by apply list_fmap_ext.
    + apply Forall_fmap, Forall_forall. intros seed' _.
      unfold compose, lost_player, outcome_label. simpl.
      destruct (lost_label_cases (final (trial (Z.of_nat seed'))))
        as [[-> _] | [[-> _] | [-> _]]]; auto.
Qed.

(** C10. The rounds of a trial are full rounds: in each, the first mover of
    the shuffled order takes a turn and the second mover takes a turn in
    the game that turn left, whatever [has_lost] says there. The loop
    condition is looked at in the games between rounds only: it holds at
    the start of each round played and fails in the final game, which is
    the start of the round after the last. *)
Theorem rounds_are_full seed :
  let first := first_mover seed in
  let second := second_mover seed in
  let k := length (rounds (trial seed)) in
  list_players (trial seed) = [first; second]
  ∧ first ≠ second
  ∧ idx_count (trial seed) = Z.of_nat k
  ∧ rounds (trial seed) = rounds_from first second k (start seed)
  ∧ final (trial seed) = boundary first second k (start seed)
  ∧ Forall (λ j, goes_on (Z.of_nat j) (boundary first second j (start seed))
                 = true) (seq 0 k)
  ∧ goes_on (Z.of_nat k) (final (trial seed)) = false.
Proof.
  intros first second k.
  destruct (trial_plays seed) as (Hplayers & Hplays & _).
  pose proof (plays_counter _ _ _ _ _ _ Hplays) as Hcount.
  pose proof (plays_end _ _ _ _ _ _ Hplays) as Hend.
  destruct (plays_pair _ _ _ _ _ _ _ Hplays) as (Hrounds & Hfinal & Hon).
  rewrite Z.add_0_l in Hcount.
  split_and!.
  - exact Hplayers.
  - apply movers_differ.
  - exact Hcount.
  - exact Hrounds.
  - exact Hfinal.
  - revert Hon. apply Forall_impl. intros j Hj.
    by rewrite Z.add_0_l in Hj.
  - subst k. by rewrite <- Hcount.
Qed.
End TrialClaims.

(** ** The binomial test *)

Section SignificanceClaims.
Context {BinomTestResult : Type}
        (binomtest : nat → nat → QArith_base.Q → string → BinomTestResult).

Lemma n_lost_cons label row rows :
  n_lost label (row :: rows)
  = ((if bool_decide (lost_player row = label) then 1 else 0)
     + n_lost label rows)%nat.
Proof.
  unfold n_lost. rewrite filter_cons.
  case_decide; case_bool_decide; done.
Qed.

Lemma n_lost_decided label rows :
  label ≠ "nobody_lost" →
  n_lost label (filter (λ row, lost_player row ≠ "nobody_lost") rows)
  = n_lost label rows.
Proof.
  intros Hlabel. induction rows as [|row rows IH]; [done|].
  rewrite filter_cons. case_decide as Hrow.
  - by rewrite !n_lost_cons, IH.
  - rewrite n_lost_cons, IH. case_bool_decide; [|done].
    destruct Hrow. congruence.
Qed.

Lemma n_lost_partition rows :
  (n_lost_p1 rows + n_lost_p2 rows + n_lost "nobody_lost" rows
   + length (filter (λ row, ¬ outcome_label (lost_player row)) rows))%nat
  = length rows.
Proof.
  unfold n_lost_p1, n_lost_p2.
  induction rows as [|row rows IH]; [done|].
  rewrite !n_lost_cons, filter_cons. simpl length. rewrite <- IH.
  unfold outcome_label.
  case_decide as Hout; repeat case_bool_decide; simpl;
    try lia; exfalso; try congruence.
  - apply Hout. auto.
  - apply Hout. auto.
  - apply Hout. auto.
  - tauto.
Qed.

Lemma test_inputs_counts rows :
  test_inputs rows
  = (n_lost_p1 rows, (n_lost_p1 rows + n_lost_p2 rows)%nat).
Proof.
  unfold n_lost_p1, n_lost_p2.
  induction rows as [|[[seed label] starter] rows IH]; [done|].
  rewrite !n_lost_cons. simpl. rewrite IH.
  unfold lost_player. simpl.
  destruct (decide (label = "player1_lost")) as [-> | Hp1].
  { eval_string_tests. simpl. f_equal; lia. }
  rewrite (bool_decide_eq_false_2 (label = "player1_lost")) by done.
  destruct (decide (label = "player2_lost")) as [-> | Hp2].
  { eval_string_tests. simpl. f_equal; lia. }
  by rewrite (bool_decide_eq_false_2 (label = "player2_lost")) by done.
Qed.

(** C8. The test is called two-sided with null probability one half, with
    [k] the number of rows labelled [player1_lost] and [n] that number plus
    the number of rows labelled [player2_lost]: a row labelled
    [player1_lost] adds one to [k] and to [n], a row labelled [player2_lost]
    adds one to [n] only, and a row labelled [nobody_lost] adds to neither,
    so that [k] and [n] are the inputs as the spec words them. Dropping the
    rows labelled [nobody_lost], or adding one, leaves [k], [n] and the test
    as they are, and [n] is what is left of the rows once those labelled
    [nobody_lost], and those with no label of the three, are taken away. *)
Theorem significance_ignores_undecided rows seed starter :
  significance binomtest rows
  = binomtest (n_lost "player1_lost" rows)
      (n_lost "player1_lost" rows + n_lost "player2_lost" rows)%nat
      (QArith_base.Qmake 1 2) "two-sided"
  ∧ n_lost_p1 (filter (λ row, lost_player row ≠ "nobody_lost") rows)
    = n_lost_p1 rows
  ∧ n_lost_p2 (filter (λ row, lost_player row ≠ "nobody_lost") rows)
    = n_lost_p2 rows
  ∧ significance binomtest
      (filter (λ row, lost_player row ≠ "nobody_lost") rows)
    = significance binomtest rows
  ∧ significance binomtest ((seed, "nobody_lost", starter) :: rows)
    = significance binomtest rows
  ∧ (n_lost_p1 rows + n_lost_p2 rows
     + (n_lost "nobody_lost" rows
        + length (filter (λ row, ¬ outcome_label (lost_player row)) rows)))%nat
    = length rows
  ∧ significance binomtest rows
    = binomtest (test_inputs rows).1 (test_inputs rows).2
        (QArith_base.Qmake 1 2) "two-sided"
  ∧ significance binomtest ((seed, "player1_lost", starter) :: rows)
    = binomtest (S (test_inputs rows).1) (S (test_inputs rows).2)
        (QArith_base.Qmake 1 2) "two-sided"
  ∧ significance binomtest ((seed, "player2_lost", starter) :: rows)
    = binomtest (test_inputs rows).1 (S (test_inputs rows).2)
        (QArith_base.Qmake 1 2) "two-sided"
  ∧ significance binomtest []
    = binomtest 0%nat 0%nat (QArith_base.Qmake 1 2) "two-sided".
Proof.
  assert (H1 : n_lost_p1 (filter (λ row, lost_player row ≠ "nobody_lost") rows)
               = n_lost_p1 rows) by (by apply n_lost_decided).
  assert (H2 : n_lost_p2 (filter (λ row, lost_player row ≠ "nobody_lost") rows)
               = n_lost_p2 rows) by (by apply n_lost_decided).
  assert (H3 : ∀ rows', significance binomtest rows'
                 = binomtest (test_inputs rows').1 (test_inputs rows').2
                     (QArith_base.Qmake 1 2) "two-sided").
  { intros rows'. by rewrite test_inputs_counts. }
  split_and!.
  - reflexivity.
  - exact H1.
  - exact H2.
  - unfold significance. by rewrite H1, H2.
  - unfold significance, n_lost_p1, n_lost_p2. by rewrite !n_lost_cons.
  - pose proof (n_lost_partition rows). lia.
  - apply H3.
  - rewrite H3. simpl. by destruct (test_inputs rows).
  - rewrite H3. simpl. by destruct (test_inputs rows).
  - reflexivity.
Qed.
End SignificanceClaims.

(** ** Further properties of the buy methods *)

Lemma color_of_name_acquired d road_name st road :
  color_of_name (acquired d road_name st) road = color_of_name st road.
Proof.
  unfold color_of_name. simpl.
  destruct (_dict_roads (self st) !! road) as [l|]; [|done]. simpl.
  destruct (decide (d = l)) as [<- | Hne].
  - by rewrite fn_lookup_insert.
  - by rewrite fn_lookup_insert_ne.
Qed.

Lemma count_color_ext st st' owned c :
  (∀ road, color_of_name st' road = color_of_name st road) →
  count_color st' owned c = count_color st owned c.
Proof.
  intros Hext. unfold count_color.
  induction owned as [|road rest IH]; [done|].
  rewrite !filter_cons, Hext. case_decide; simpl; by rewrite IH.
Qed.

Lemma count_color_snoc st owned road c :
  count_color st (owned ++ [road]) c
  = (count_color st owned c
     + if bool_decide (color_of_name st road = Some c) then 1 else 0)%nat.
Proof.
  unfold count_color. rewrite list.filter_app, length_app, filter_cons, filter_nil.
  case_decide; case_bool_decide; done.
Qed.

(** A purchase past the colour test and the money test either finds a name
    that is no key of the road table and raises in [acquired], or returns
    with the colour marked as the chained tests say. *)
Lemma copied_buy_purchase buy d road_name st :
  copied_buy buy →
  color (roads st d) ≠ "brown" →
  price (roads st d) ≤ _cash (self st) →
  let st1 := acquired d road_name st in
  let c := color (roads st d) in
  let owned := (_list_owned_roads (self st) ++ [road_name])%list in
  (¬ Forall (λ road, is_Some (_dict_roads (self st) !! road)) owned
   ∧ ∃ key, buy d road_name st = (Raised (KeyError key), st1)
            ∧ key ∈ owned ∧ _dict_roads (self st) !! key = None)
  ∨ (Forall (λ road, is_Some (_dict_roads (self st) !! road)) owned
     ∧ buy d road_name st
       = (Returned tt,
          if chain_marks c (count_color st owned c)
          then marked c st1 else st1)).
Proof.
  intros Hbuy Hcolor Hcash st1 c owned.
  rewrite (copied_buy_run buy d road_name st Hbuy Hcolor Hcash).
  destruct (decide (Forall (λ road, is_Some (_dict_roads (self st) !! road))
                      owned)) as [Hkeys|Hkeys].
  - right. split; [done|].
    rewrite (after_purchase_complete d road_name st Hkeys). cbv zeta.
    change (_list_owned_roads (self (acquired d road_name st))) with owned.
    rewrite (count_color_ext st (acquired d road_name st)); [done|].
    apply color_of_name_acquired.
  - left. split; [done|].
    destruct (for_road_in_raised owned c 0%nat st1 Hkeys)
      as (key & Hrun & Hin & Hnone).
    exists key. split_and!; [|done..].
    unfold after_purchase. cbv zeta. subst owned c st1.
    change (_list_owned_roads (self (acquired d road_name st)))
      with (_list_owned_roads (self st) ++ [road_name])%list.
    by rewrite Hrun.
Qed.

(** The three ways a call can end, with the state each leaves. *)
Lemma copied_buy_step buy d road_name st :
  copied_buy buy →
  (buy d road_name st).2 = st
  ∨ (color (roads st d) ≠ "brown"
     ∧ price (roads st d) ≤ _cash (self st)
     ∧ ((buy d road_name st).2 = acquired d road_name st
        ∨ (buy d road_name st).2
          = marked (color (roads st d)) (acquired d road_name st))).
Proof.
  intros Hbuy.
  destruct (decide (color (roads st d) = "brown")) as [Hbrown|Hcolor].
  { left. by rewrite copied_buy_declines. }
  destruct (decide (_cash (self st) < price (roads st d))) as [Hpoor|Hrich].
  { left. by rewrite copied_buy_refuses. }
  right. split_and!; [done | lia |].
  rewrite copied_buy_run by (done || lia).
  apply after_purchase_state.
Qed.

(** An invariant of the calls that name their road by its key is an
    invariant of runs of such calls. *)
Lemma buy_all_invariant_by_name (P : State → Prop) table buy calls st :
  (∀ d road_name st,
     P st → table !! road_name = Some d → P (buy d road_name st).2) →
  by_name table calls →
  P st → P (buy_all buy calls st).2.
Proof.
  intros Hstep Hcalls. revert st.
  induction Hcalls as [|[d road_name] rest Hcall _ IH]; intros st HP; simpl;
    [done|].
  unfold bind.
  pose proof (Hstep d road_name st HP Hcall) as HP'.
  destruct (buy d road_name st) as [[[]|e] st']; simpl in *; [|done].
  by apply IH.
Qed.

Lemma buy_all_cons buy d road_name rest st :
  (buy_all buy ((d, road_name) :: rest) st).2
  = match (buy d road_name st).1 with
    | Returned _ => (buy_all buy rest (buy d road_name st).2).2
    | Raised _ => (buy d road_name st).2
    end.
Proof.
  simpl. unfold bind. by destruct (buy d road_name st) as [[[]|e] st'].
Qed.

(** What a call to a copy of the method can do to the owned-roads list, the
    player's name and the road table. *)
Lemma copied_buy_list buy d road_name st :
  copied_buy buy →
  _list_owned_roads (self (buy d road_name st).2) = _list_owned_roads (self st)
  ∨ _list_owned_roads (self (buy d road_name st).2)
    = (_list_owned_roads (self st) ++ [road_name])%list.
Proof.
  intros Hbuy.
  destruct (copied_buy_step buy d road_name st Hbuy)
    as [-> | (_ & _ & [-> | ->])]; [by left | by right | by right].
Qed.

Lemma copied_buy_name_table buy d road_name st :
  copied_buy buy →
  _name (self (buy d road_name st).2) = _name (self st)
  ∧ _dict_roads (self (buy d road_name st).2) = _dict_roads (self st).
Proof.
  intros Hbuy.
  by destruct (copied_buy_step buy d road_name st Hbuy)
    as [-> | (_ & _ & [-> | ->])].
Qed.

(** The fields of a road dictionary that a call leaves alone: all of them
    for a road that is not the one passed, all but the owner for that one. *)
Lemma copied_buy_road buy d road_name st l :
  copied_buy buy →
  color (roads (buy d road_name st).2 l) = color (roads st l)
  ∧ price (roads (buy d road_name st).2 l) = price (roads st l)
  ∧ mortgage_value (roads (buy d road_name st).2 l)
    = mortgage_value (roads st l)
  ∧ (l ≠ d → roads (buy d road_name st).2 l = roads st l).
Proof.
  intros Hbuy.
  assert (Hroads : roads (buy d road_name st).2 = roads st
                   ∨ roads (buy d road_name st).2
                     = <[d := set_belongs_to (Some (_name (self st)))
                                (roads st d)]> (roads st)).
  { destruct (copied_buy_step buy d road_name st Hbuy)
      as [-> | (_ & _ & [-> | ->])]; [by left | by right | by right]. }
  destruct Hroads as [-> | ->]; [done|].
  destruct (decide (d = l)) as [<- | Hne].
  - rewrite fn_lookup_insert. split_and!; done.
  - rewrite fn_lookup_insert_ne by done. split_and!; done.
Qed.

(** A call that names its road by its key, made with every owned name a key,
    either leaves the state alone or returns from a purchase that counted
    one more road of the colour. *)
Lemma copied_buy_by_name buy d road_name st :
  copied_buy buy →
  _dict_roads (self st) !! road_name = Some d →
  known_roads st →
  let c := color (roads st d) in
  let n := count_color st (_list_owned_roads (self st)) c in
  buy d road_name st = (Returned tt, st)
  ∨ buy d road_name st = (Raised (not_enough_money (_name (self st))), st)
  ∨ (c ≠ "brown"
     ∧ price (roads st d) ≤ _cash (self st)
     ∧ buy d road_name st
       = (Returned tt,
          if bool_decide (threshold c = Some (S n))
          then marked c (acquired d road_name st)
          else acquired d road_name st)).
Proof.
  intros Hbuy Hname Hknown c n.
  destruct (decide (c = "brown")) as [Hbrown|Hcolor].
  { left. by apply copied_buy_declines. }
  destruct (decide (_cash (self st) < price (roads st d))) as [Hpoor|Hrich].
  { right; left. by apply copied_buy_refuses. }
  right; right. split_and!; [done | lia |].
  destruct (copied_buy_purchase buy d road_name st Hbuy Hcolor ltac:(lia))
    as [[Hmissing _] | [_ Hrun]].
  { destruct Hmissing. apply Forall_app. split; [done|].
    apply Forall_singleton. by rewrite Hname. }
  rewrite Hrun, chain_marks_threshold, count_color_snoc.
  rewrite (bool_decide_eq_true_2 (color_of_name st road_name = Some _))
    by (unfold color_of_name; rewrite Hname; reflexivity).
  fold c n. by rewrite Nat.add_1_r.
Qed.

Lemma count_color_after buy d road_name st c :
  copied_buy buy →
  count_color (buy d road_name st).2 (_list_owned_roads (self st)) c
  = count_color st (_list_owned_roads (self st)) c.
Proof.
  intros Hbuy. apply count_color_ext. intros road. unfold color_of_name.
  destruct (copied_buy_name_table buy d road_name st Hbuy) as [_ ->].
  destruct (_dict_roads (self st) !! road) as [l|]; [|done]. simpl.
  by destruct (copied_buy_road buy d road_name st l Hbuy) as [-> _].
Qed.

Lemma threshold_at_least_2 c k : threshold c = Some k → (2 ≤ k)%nat.
Proof.
  unfold threshold. repeat case_bool_decide; intros [= <-]; lia.
Qed.

(** A player with no owned road and no marked colour. *)
Lemma monopolies_agree_start st :
  _list_owned_roads (self st) = [] →
  (∀ c, _dict_owned_colors (self st) !! c ≠ Some true) →
  monopolies_agree st.
Proof.
  intros Hnil Hnone c. rewrite Hnil. split; [by intros ?%Hnone|].
  intros (k & Hk%threshold_at_least_2 & Hle).
  unfold count_color in Hle. simpl in Hle. lia.
Qed.

Lemma monopolies_agree_purchase d road_name st :
  monopolies_agree st →
  _dict_roads (self st) !! road_name = Some d →
  let c := color (roads st d) in
  let n := count_color st (_list_owned_roads (self st)) c in
  monopolies_agree
    (if bool_decide (threshold c = Some (S n))
     then marked c (acquired d road_name st)
     else acquired d road_name st).
Proof.
  intros Hagree Hname c n c'.
  set (st' := if bool_decide (threshold c = Some (S n))
              then marked c (acquired d road_name st)
              else acquired d road_name st).
  assert (Hlist : _list_owned_roads (self st')
                  = (_list_owned_roads (self st) ++ [road_name])%list)
    by (subst st'; by case_bool_decide).
  assert (Hcount : count_color st' (_list_owned_roads (self st')) c'
                   = (count_color st (_list_owned_roads (self st)) c'
                      + if bool_decide (c = c') then 1 else 0)%nat).
  { rewrite Hlist.
    rewrite (count_color_ext st st').
    - rewrite count_color_snoc. f_equal.
      unfold color_of_name. rewrite Hname. simpl. fold c.
      repeat case_bool_decide; congruence.
    - intros road. subst st'. case_bool_decide;
        apply (color_of_name_acquired d road_name st road). }
  rewrite Hcount.
  destruct (decide (c = c')) as [<- | Hne].
  - rewrite bool_decide_eq_true_2 by done. fold n. subst st'.
    case_bool_decide as Hthr; simpl.
    + rewrite lookup_insert_eq. split; [|done].
      intros _. exists (S n). split; [done | lia].
    + rewrite (Hagree c). fold n. split.
      * intros (k & Hk & Hle). exists k. split; [done | lia].
      * intros (k & Hk & Hle). exists k. split; [done|].
        assert (k ≠ S n) by congruence. lia.
  - rewrite bool_decide_eq_false_2 by done. rewrite Nat.add_0_r.
    rewrite <- (Hagree c'). subst st'.
    case_bool_decide; simpl; [by rewrite lookup_insert_ne | done].
Qed.

Lemma mortgage_sum_snoc st owned road :
  mortgage_sum st (owned ++ [road])
  = mortgage_sum st owned + mortgage_of_name st road.
Proof.
  unfold mortgage_sum. induction owned as [|r rest IH]; simpl; lia.
Qed.

Lemma mortgage_sum_ext st st' owned :
  (∀ road, mortgage_of_name st' road = mortgage_of_name st road) →
  mortgage_sum st' owned = mortgage_sum st owned.
Proof.
  intros Hext. unfold mortgage_sum.
  induction owned as [|r rest IH]; simpl; [done|]. by rewrite Hext, IH.
Qed.

Lemma mortgage_of_name_after buy d road_name st road :
  copied_buy buy →
  mortgage_of_name (buy d road_name st).2 road = mortgage_of_name st road.
Proof.
  intros Hbuy. unfold mortgage_of_name.
  destruct (copied_buy_name_table buy d road_name st Hbuy) as [_ ->].
  destruct (_dict_roads (self st) !! road) as [l|]; [|done].
  by destruct (copied_buy_road buy d road_name st l Hbuy) as (_ & _ & -> & _).
Qed.

(** ** The three ways of building the no-brown player *)



(** ** The buy methods: what else the code shows *)

(** X1. A purchase is not undone when the counting loop fails: with a road
    that is not brown and enough cash, if the new road name or an owned name
    is no key of the player's road table, either copy of [buy] raises
    [KeyError] for such a name after the price was paid, the owner set and
    the name appended. *)
Theorem unknown_name_raises_after_payment buy d road_name st missing :
  copied_buy buy →
  color (roads st d) ≠ "brown" →
  price (roads st d) ≤ _cash (self st) →
  missing ∈ (_list_owned_roads (self st) ++ [road_name])%list →
  _dict_roads (self st) !! missing = None →
  let st' := (buy d road_name st).2 in
  (∃ key, (buy d road_name st).1 = Raised (KeyError key)
          ∧ key ∈ (_list_owned_roads (self st) ++ [road_name])%list
          ∧ _dict_roads (self st) !! key = None)
  ∧ _cash (self st') = _cash (self st) - price (roads st d)
  ∧ bank_cash st' = bank_cash st + price (roads st d)
  ∧ belongs_to (roads st' d) = Some (_name (self st))
  ∧ _list_owned_roads (self st')
    = (_list_owned_roads (self st) ++ [road_name])%list
  ∧ _dict_owned_colors (self st') = _dict_owned_colors (self st).
Proof.
  intros Hbuy Hcolor Hcash Hin Hnone st'. subst st'.
  destruct (copied_buy_purchase buy d road_name st Hbuy Hcolor Hcash)
    as [[_ (key & Hrun & Hkey & Hkeynone)] | [Hkeys _]].
  - rewrite Hrun. simpl. rewrite fn_lookup_insert.
    split_and!; try done. by exists key.
  - rewrite list.Forall_forall in Hkeys. destruct (Hkeys missing Hin) as [l Hl].
    congruence.
Qed.

Lemma unknown_name_raises_after_payment_witness :
  let st := example_state 1000 in
  let out := Player_no_brown_buy 1%nat "mayfair" st in
  (copied_buy Player_no_brown_buy
   ∧ color (roads st 1%nat) ≠ "brown"
   ∧ price (roads st 1%nat) ≤ _cash (self st)
   ∧ _dict_roads (self st) !! "mayfair" = None)
  ∧ out.1 = Raised (KeyError "mayfair")
  ∧ _cash (self out.2) = 600
  ∧ belongs_to (roads out.2 1%nat) = Some "player1".
Proof.
  intros st out.
  assert (H1 : copied_buy Player_no_brown_buy) by (by left).
  assert (H2 : color (roads st 1%nat) ≠ "brown") by (vm_compute; discriminate).
  assert (H3 : price (roads st 1%nat) ≤ _cash (self st))
    by (vm_compute; discriminate).
  assert (H4 : "mayfair" ∈ (_list_owned_roads (self st) ++ ["mayfair"])%list)
    by (simpl; apply list_elem_of_here).
  assert (H5 : _dict_roads (self st) !! "mayfair" = None)
    by (vm_compute; reflexivity).
  split; [done|].
  destruct (unknown_name_raises_after_payment Player_no_brown_buy 1%nat
              "mayfair" st "mayfair" H1 H2 H3 H4 H5)
    as (_ & E1 & _ & E3 & _).
  fold out in E1, E3.
  split_and!; [vm_compute; reflexivity | by rewrite E1 | by rewrite E3].
Defined.

(** X2. How a call to either copy of [buy] ends is decided by three tests:
    it returns exactly when the road is brown, or the cash covers the price
    and the owned names and the new name are all keys of the road table; it
    raises the not-enough-money exception exactly when the road is not brown
    and the cash is below the price; it raises [KeyError] exactly when the
    road is not brown, the cash covers the price and some such name is no
    key. *)
Theorem buy_outcome buy d road_name st :
  copied_buy buy →
  let known :=
    Forall (λ road, is_Some (_dict_roads (self st) !! road))
      (_list_owned_roads (self st) ++ [road_name]) in
  ((buy d road_name st).1 = Returned tt
   ↔ color (roads st d) = "brown"
     ∨ (price (roads st d) ≤ _cash (self st) ∧ known))
  ∧ ((∃ msg, (buy d road_name st).1 = Raised (Exception msg))
     ↔ color (roads st d) ≠ "brown" ∧ _cash (self st) < price (roads st d))
  ∧ ((∃ key, (buy d road_name st).1 = Raised (KeyError key))
     ↔ color (roads st d) ≠ "brown"
       ∧ price (roads st d) ≤ _cash (self st) ∧ ¬ known).
Proof.
  intros Hbuy known.
  destruct (decide (color (roads st d) = "brown")) as [Hbrown|Hcolor].
  { rewrite (copied_buy_declines buy d road_name st Hbuy Hbrown). simpl.
    split_and!; split.
    - by left.
    - done.
    - by intros [msg ?].
    - by intros [? _].
    - by intros [key ?].
    - by intros [? _]. }
  destruct (decide (_cash (self st) < price (roads st d))) as [Hpoor|Hrich].
  { rewrite (copied_buy_refuses buy d road_name st Hbuy Hcolor Hpoor). simpl.
    split_and!; split.
    - done.
    - intros [? | [? _]]; [done | lia].
    - done.
    - intros _. by eexists.
    - by intros [key ?].
    - intros (_ & ? & _). lia. }
  destruct (copied_buy_purchase buy d road_name st Hbuy Hcolor ltac:(lia))
    as [[Hmissing (key & -> & _)] | [Hkeys ->]]; simpl.
  - split_and!; split.
    + done.
    + intros [? | [_ ?]]; done.
    + by intros [msg ?].
    + intros [_ ?]. lia.
    + intros _. split_and!; [done | lia | done].
    + intros _. by exists key.
  - split_and!; split.
    + intros _. right. split; [lia | done].
    + done.
    + by intros [msg ?].
    + intros [_ ?]. lia.
    + by intros [key ?].
    + intros (_ & _ & ?). done.
Qed.

Lemma buy_outcome_witness :
  let st := example_state 50 in
  copied_buy buy_new
  ∧ (buy_new 2%nat "old_kent_road" st).1 = Returned tt
  ∧ (∃ msg, (buy_new 3%nat "the_angel_islington" st).1
            = Raised (Exception msg)).
Proof.
  intros st.
  assert (H1 : copied_buy buy_new) by (by right).
  split; [done|]. split.
  - apply (buy_outcome buy_new 2%nat "old_kent_road" st H1).
    left. reflexivity.
  - apply (buy_outcome buy_new 3%nat "the_angel_islington" st H1).
    split; [vm_compute; discriminate | reflexivity].
Defined.

(** X3. Neither copy of [buy] overdraws the player: cash that is not
    negative stays so through any run of calls, whatever the prices. *)
Theorem cash_stays_nonnegative buy calls st :
  copied_buy buy →
  0 ≤ _cash (self st) →
  0 ≤ _cash (self (buy_all buy calls st).2).
Proof.
  intros Hbuy.
  apply (buy_all_invariant (λ s, 0 ≤ _cash (self s))).
  intros d road_name s Hs.
  destruct (copied_buy_step buy d road_name s Hbuy)
    as [-> | (_ & Hcash & [-> | ->])]; simpl; lia.
Qed.

Lemma cash_stays_nonnegative_witness :
  let st := example_state 500 in
  let calls := [(0%nat, "park_place"); (3%nat, "the_angel_islington");
                (1%nat, "boardwalk")] in
  (copied_buy Player_no_brown_buy ∧ 0 ≤ _cash (self st))
  ∧ _cash (self (buy_all Player_no_brown_buy calls st).2) = 90
  ∧ 0 ≤ _cash (self (buy_all Player_no_brown_buy calls st).2).
Proof.
  intros st calls.
  assert (H1 : copied_buy Player_no_brown_buy) by (by left).
  assert (H2 : 0 ≤ _cash (self st)) by (vm_compute; discriminate).
  split; [done|]. split; [vm_compute; reflexivity|].
  exact (cash_stays_nonnegative Player_no_brown_buy calls st H1 H2).
Defined.

(** X4. No run of calls to either copy of [buy] creates or destroys cash:
    the cash of the bank, the player and the other players together is the
    same after the run as before it, also when a call in it raises. *)
Theorem run_conserves_cash buy calls st others :
  copied_buy buy →
  total_cash (buy_all buy calls st).2 others = total_cash st others.
Proof.
  intros Hbuy.
  apply (buy_all_invariant
           (λ s, total_cash s others = total_cash st others)); [|done].
  intros d road_name s Hs. rewrite <- Hs. unfold total_cash.
  destruct (copied_buy_step buy d road_name s Hbuy)
    as [-> | (_ & _ & [-> | ->])]; simpl; lia.
Qed.

Lemma run_conserves_cash_witness :
  let st := example_state 1000 in
  let calls := [(0%nat, "park_place"); (1%nat, "mayfair");
                (3%nat, "the_angel_islington")] in
  copied_buy buy_new
  ∧ (buy_all buy_new calls st).1 = Raised (KeyError "mayfair")
  ∧ total_cash (buy_all buy_new calls st).2 [example_player 1500] = 2500.
Proof.
  intros st calls.
  assert (H1 : copied_buy buy_new) by (by right).
  split; [done|]. split; [vm_compute; reflexivity|].
  rewrite (run_conserves_cash buy_new calls st [example_player 1500] H1).
  reflexivity.
Defined.

(** X5. What a run of calls to either copy of [buy] never touches: the
    player's name and road table, the colour, price and mortgage value of
    every road dictionary, and every field of a road dictionary that is not
    passed in one of the calls. *)
Theorem run_keeps_tables buy calls st l :
  copied_buy buy →
  let st' := (buy_all buy calls st).2 in
  _name (self st') = _name (self st)
  ∧ _dict_roads (self st') = _dict_roads (self st)
  ∧ color (roads st' l) = color (roads st l)
  ∧ price (roads st' l) = price (roads st l)
  ∧ mortgage_value (roads st' l) = mortgage_value (roads st l)
  ∧ (l ∉ calls.*1 → roads st' l = roads st l).
Proof.
  intros Hbuy. cbv zeta. revert st.
  induction calls as [|[d road_name] rest IH]; intros st; [done|].
  rewrite buy_all_cons.
  destruct (copied_buy_name_table buy d road_name st Hbuy) as [Hname Htable].
  destruct (copied_buy_road buy d road_name st l Hbuy)
    as (Hcolor & Hprice & Hmortgage & Hother).
  assert (Hfresh : l ∉ ((d, road_name) :: rest).*1 → l ≠ d ∧ l ∉ rest.*1).
  { rewrite fmap_cons, not_elem_of_cons. done. }
  destruct (buy d road_name st).1.
  - destruct (IH (buy d road_name st).2) as (-> & -> & -> & -> & -> & Hrest).
    split_and!; try done.
    intros [Hne Hnotin]%Hfresh. rewrite (Hrest Hnotin). by apply Hother.
  - split_and!; try done.
    intros [Hne _]%Hfresh. by apply Hother.
Qed.

Lemma run_keeps_tables_witness :
  let st := example_state 1000 in
  let calls := [(0%nat, "park_place"); (3%nat, "the_angel_islington")] in
  let st' := (buy_all buy_new calls st).2 in
  copied_buy buy_new
  ∧ ((1%nat ∉ calls.*1) ∧ roads st' 1%nat = roads st 1%nat)
  ∧ belongs_to (roads st' 0%nat) = Some "player1"
  ∧ price (roads st' 0%nat) = 350.
Proof.
  intros st calls st'.
  assert (H1 : copied_buy buy_new) by (by right).
  assert (H2 : 1%nat ∉ calls.*1).
  { simpl. rewrite !not_elem_of_cons. split_and!; try done.
    apply not_elem_of_nil. }
  destruct (run_keeps_tables buy_new calls st 1%nat H1)
    as (_ & _ & _ & _ & _ & Hsame).
  destruct (run_keeps_tables buy_new calls st 0%nat H1)
    as (_ & _ & _ & Hprice & _).
  split_and!; [done | done | by apply Hsame | vm_compute; reflexivity |].
  fold st' in Hprice. by rewrite Hprice.
Defined.

(** X6. The owned-roads list only grows, at its end and by names passed in
    the calls: after any run of calls to either copy of [buy] it is the list
    before followed by some of the road names of the calls, in call order;
    nothing is removed or reordered. *)
Theorem owned_roads_only_grow buy calls st :
  copied_buy buy →
  ∃ added,
    _list_owned_roads (self (buy_all buy calls st).2)
    = (_list_owned_roads (self st) ++ added)%list
    ∧ added `sublist_of` calls.*2.
Proof.
  intros Hbuy. revert st.
  induction calls as [|[d road_name] rest IH]; intros st.
  { exists []. by rewrite app_nil_r. }
  rewrite buy_all_cons, fmap_cons. simpl.
  destruct (buy d road_name st).1.
  - destruct (IH (buy d road_name st).2) as (added & -> & Hsub).
    destruct (copied_buy_list buy d road_name st Hbuy) as [-> | ->].
    + exists added. split; [done | by apply sublist_cons].
    + exists (road_name :: added). rewrite <- app_assoc. simpl.
      split; [done | by apply sublist_skip].
  - destruct (copied_buy_list buy d road_name st Hbuy) as [-> | ->].
    + exists []. rewrite app_nil_r. split; [done | apply sublist_nil_l].
    + exists [road_name]. split; [done|].
      apply sublist_skip, sublist_nil_l.
Qed.

Lemma owned_roads_only_grow_witness :
  let st := example_state 2000 in
  let calls := [(1%nat, "boardwalk"); (2%nat, "old_kent_road");
                (1%nat, "boardwalk")] in
  copied_buy Player_no_brown_buy
  ∧ _list_owned_roads (self (buy_all Player_no_brown_buy calls st).2)
    = ["boardwalk"; "boardwalk"]
  ∧ ∃ added,
      _list_owned_roads (self (buy_all Player_no_brown_buy calls st).2)
      = (_list_owned_roads (self st) ++ added)%list
      ∧ added `sublist_of` calls.*2.
Proof.
  intros st calls.
  assert (H1 : copied_buy Player_no_brown_buy) by (by left).
  split_and!; [done | vm_compute; reflexivity |].
  exact (owned_roads_only_grow Player_no_brown_buy calls st H1).
Defined.

(** X7. The improvements dictionary follows the owned-roads list: if its
    keys are the owned road names before a run of calls to either copy of
    [buy], they are after it, also when a call in the run raises. *)
Theorem improvements_follow_owned_roads buy calls st :
  copied_buy buy →
  improvements_cover st →
  improvements_cover (buy_all buy calls st).2.
Proof.
  intros Hbuy. apply (buy_all_invariant improvements_cover).
  intros d road_name s Hs road. specialize (Hs road).
  destruct (copied_buy_step buy d road_name s Hbuy)
    as [-> | (_ & _ & [-> | ->])]; [done | |]; simpl;
    rewrite elem_of_app, list_elem_of_singleton, Hs;
    (destruct (decide (road_name = road)) as [-> | Hne];
     [rewrite lookup_insert_eq; split; [by eexists | by right]
     |rewrite lookup_insert_ne by done; split; [by intros [? | ?] | by left]]).
Qed.

Lemma improvements_follow_owned_roads_witness :
  let st := example_state 1000 in
  let calls := [(0%nat, "park_place"); (1%nat, "mayfair")] in
  (copied_buy buy_new ∧ improvements_cover st)
  ∧ improvements_cover (buy_all buy_new calls st).2
  ∧ _dict_owned_houses_hotels (self (buy_all buy_new calls st).2) !! "mayfair"
    = Some (0, 0).
Proof.
  intros st calls.
  assert (H1 : copied_buy buy_new) by (by right).
  assert (H2 : improvements_cover st).
  { intros road. simpl. rewrite lookup_empty. split.
    - by intros ?%not_elem_of_nil.
    - by intros [? ?]. }
  split_and!; [done | done | | vm_compute; reflexivity].
  exact (improvements_follow_owned_roads buy_new calls st H1 H2).
Defined.

(** X8. Along purchases made as a caller makes them, the marks agree with
    the thresholds read as "at least": if every call names its road by its
    key in the player's road table, and before the run every owned name is a
    key and a colour is marked exactly when the owned names of that colour
    reach its threshold, then the same holds after any run of calls to
    either copy of [buy]. The equality tests of the chain miss no monopoly
    there, because the count of a colour grows by one per purchase. *)
Theorem marks_track_thresholds buy calls st :
  copied_buy buy →
  by_name (_dict_roads (self st)) calls →
  known_roads st →
  monopolies_agree st →
  known_roads (buy_all buy calls st).2
  ∧ monopolies_agree (buy_all buy calls st).2.
Proof.
  intros Hbuy Hcalls Hknown Hagree.
  cut (_dict_roads (self (buy_all buy calls st).2) = _dict_roads (self st)
       ∧ known_roads (buy_all buy calls st).2
       ∧ monopolies_agree (buy_all buy calls st).2); [tauto|].
  apply (buy_all_invariant_by_name
           (λ s, _dict_roads (self s) = _dict_roads (self st)
                 ∧ known_roads s ∧ monopolies_agree s)
           (_dict_roads (self st))); [|done|done].
  intros d road_name s (Htable & Hk & Ha) Hname. rewrite <- Htable in Hname.
  destruct (copied_buy_by_name buy d road_name s Hbuy Hname Hk)
    as [-> | [-> | (_ & _ & ->)]]; [done | done |].
  cbn [snd]. split_and!.
  - by destruct (bool_decide _).
  - assert (Hnew : Forall (λ road, is_Some (_dict_roads (self s) !! road))
                     (_list_owned_roads (self s) ++ [road_name])).
    { apply Forall_app. split; [done|].
      apply Forall_singleton. by rewrite Hname. }
    by destruct (bool_decide _).
  - by apply monopolies_agree_purchase.
Qed.

Lemma marks_track_thresholds_witness :
  let st := example_state 2000 in
  let calls := [(0%nat, "park_place"); (3%nat, "the_angel_islington");
                (1%nat, "boardwalk"); (0%nat, "park_place")] in
  let st' := (buy_all Player_no_brown_buy calls st).2 in
  (copied_buy Player_no_brown_buy
   ∧ by_name (_dict_roads (self st)) calls
   ∧ known_roads st ∧ monopolies_agree st)
  ∧ monopolies_agree st'
  ∧ count_color st' (_list_owned_roads (self st')) "blue" = 3%nat
  ∧ _dict_owned_colors (self st') !! "blue" = Some true
  ∧ _dict_owned_colors (self st') !! "light_blue" = None.
Proof.
  intros st calls st'.
  assert (H1 : copied_buy Player_no_brown_buy) by (by left).
  assert (H2 : by_name (_dict_roads (self st)) calls).
  { repeat constructor. }
  assert (H3 : known_roads st) by constructor.
  assert (H4 : monopolies_agree st).
  { apply monopolies_agree_start; [done|].
    intros c. simpl. by rewrite lookup_empty. }
  split; [done|].
  destruct (marks_track_thresholds Player_no_brown_buy calls st H1 H2 H3 H4)
    as [_ Hagree].
  split_and!; [exact Hagree | vm_compute; reflexivity.. ].
Defined.

(** X9. Along purchases made as a caller makes them, the mortgageable total
    is the sum of the mortgage values of the owned roads: if every call names
    its road by its key in the player's road table and the total is that sum
    before a run of calls to either copy of [buy], it is that sum after it,
    a road listed twice counting twice. *)
Theorem mortgage_total_is_sum buy calls st :
  copied_buy buy →
  by_name (_dict_roads (self st)) calls →
  _properties_total_mortgageable_amount (self st)
  = mortgage_sum st (_list_owned_roads (self st)) →
  let st' := (buy_all buy calls st).2 in
  _properties_total_mortgageable_amount (self st')
  = mortgage_sum st' (_list_owned_roads (self st')).
Proof.
  intros Hbuy Hcalls Hsum. cbv zeta.
  cut (_dict_roads (self (buy_all buy calls st).2) = _dict_roads (self st)
       ∧ _properties_total_mortgageable_amount (self (buy_all buy calls st).2)
         = mortgage_sum (buy_all buy calls st).2
             (_list_owned_roads (self (buy_all buy calls st).2))); [tauto|].
  apply (buy_all_invariant_by_name
           (λ s, _dict_roads (self s) = _dict_roads (self st)
                 ∧ _properties_total_mortgageable_amount (self s)
                   = mortgage_sum s (_list_owned_roads (self s)))
           (_dict_roads (self st))); [|done|done].
  intros d road_name s (Htable & Hs) Hname. rewrite <- Htable in Hname.
  destruct (copied_buy_name_table buy d road_name s Hbuy) as [_ Htable'].
  split; [congruence|].
  pose proof (mortgage_sum_ext s (buy d road_name s).2) as Hext.
  pose proof (λ road, mortgage_of_name_after buy d road_name s road Hbuy)
    as Hafter.
  assert (Hroad : mortgage_of_name s road_name = mortgage_value (roads s d))
    by (unfold mortgage_of_name; by rewrite Hname).
  destruct (copied_buy_step buy d road_name s Hbuy)
    as [E | (_ & _ & [E | E])]; rewrite E in Hext |- *; simpl.
  - done.
  - rewrite Hext by (by rewrite <- E).
    rewrite mortgage_sum_snoc, Hroad. lia.
  - rewrite Hext by (by rewrite <- E).
    rewrite mortgage_sum_snoc, Hroad. lia.
Qed.

Lemma mortgage_total_is_sum_witness :
  let st := example_state 2000 in
  let calls := [(0%nat, "park_place"); (1%nat, "boardwalk");
                (1%nat, "boardwalk")] in
  let st' := (buy_all buy_new calls st).2 in
  (copied_buy buy_new
   ∧ by_name (_dict_roads (self st)) calls
   ∧ _properties_total_mortgageable_amount (self st)
     = mortgage_sum st (_list_owned_roads (self st)))
  ∧ _properties_total_mortgageable_amount (self st') = 575
  ∧ mortgage_sum st' (_list_owned_roads (self st')) = 575.
Proof.
  intros st calls st'.
  assert (H1 : copied_buy buy_new) by (by right).
  assert (H2 : by_name (_dict_roads (self st)) calls).
  { repeat constructor. }
  assert (H3 : _properties_total_mortgageable_amount (self st)
               = mortgage_sum st (_list_owned_roads (self st)))
    by reflexivity.
  split; [done|].
  pose proof (mortgage_total_is_sum buy_new calls st H1 H2 H3) as E.
  cbv zeta in E. fold st' in E.
  split; [vm_compute; reflexivity | rewrite <- E; vm_compute; reflexivity].
Defined.

(** X10. Along purchases made as a caller makes them, the owned-roads list
    and the owner fields agree: if every call names its road by its key in
    the player's road table and, before a run of calls to either copy of
    [buy], every owned name that is a key stands for a road that names the
    player as owner, the same holds after the run. *)
Theorem listed_roads_are_owned buy calls st :
  copied_buy buy →
  by_name (_dict_roads (self st)) calls →
  owns_listed st →
  owns_listed (buy_all buy calls st).2.
Proof.
  intros Hbuy Hcalls Howns.
  cut (_dict_roads (self (buy_all buy calls st).2) = _dict_roads (self st)
       ∧ owns_listed (buy_all buy calls st).2); [tauto|].
  apply (buy_all_invariant_by_name
           (λ s, _dict_roads (self s) = _dict_roads (self st)
                 ∧ owns_listed s)
           (_dict_roads (self st))); [|done|done].
  intros d road_name s (Htable & Hs) Hname. rewrite <- Htable in Hname.
  destruct (copied_buy_name_table buy d road_name s Hbuy) as [_ Htable'].
  split; [congruence|].
  assert (Hacq : ∀ road l,
            road ∈ (_list_owned_roads (self s) ++ [road_name])%list →
            _dict_roads (self s) !! road = Some l →
            belongs_to ((<[d := set_belongs_to (Some (_name (self s)))
                                  (roads s d)]> (roads s)) l)
            = Some (_name (self s))).
  { intros road l Hin Hl.
    destruct (decide (d = l)) as [<- | Hne]; [by rewrite fn_lookup_insert|].
    rewrite fn_lookup_insert_ne by done.
    apply elem_of_app in Hin as [Hin | Hin%list_elem_of_singleton].
    - by apply (Hs road).
    - subst road. congruence. }
  destruct (copied_buy_step buy d road_name s Hbuy)
    as [-> | (_ & _ & [-> | ->])]; [done | exact Hacq | exact Hacq].
Qed.

Lemma listed_roads_are_owned_witness :
  let st := example_state 1000 in
  let calls := [(0%nat, "park_place"); (3%nat, "the_angel_islington")] in
  let st' := (buy_all Player_no_brown_buy calls st).2 in
  (copied_buy Player_no_brown_buy
   ∧ by_name (_dict_roads (self st)) calls
   ∧ owns_listed st)
  ∧ owns_listed st'
  ∧ _list_owned_roads (self st') = ["park_place"; "the_angel_islington"]
  ∧ belongs_to (roads st' 3%nat) = Some "player1".
Proof.
  intros st calls st'.
  assert (H1 : copied_buy Player_no_brown_buy) by (by left).
  assert (H2 : by_name (_dict_roads (self st)) calls).
  { repeat constructor. }
  assert (H3 : owns_listed st).
  { intros road l Hin. by apply not_elem_of_nil in Hin. }
  split; [done|].
  split_and!; [| vm_compute; reflexivity..].
  exact (listed_roads_are_owned Player_no_brown_buy calls st H1 H2 H3).
Defined.

(** X11. Decorating is idempotent: [modify_buy] applied to a method that
    [modify_buy] already wraps, or to either written-out copy of [buy], gives
    a method that does what the wrapped one does on every state and road. *)
Theorem decorating_again_changes_nothing base d road_name st :
  modify_buy (modify_buy base) d road_name st
  = modify_buy base d road_name st
  ∧ modify_buy Player_no_brown_buy d road_name st
    = Player_no_brown_buy d road_name st
  ∧ modify_buy buy_new d road_name st = buy_new d road_name st.
Proof.
  destruct (decide (color (roads st d) = "brown")) as [Hbrown|Hcolor].
  - rewrite !modify_buy_declines by done.
    rewrite !copied_buy_declines by (done || by left || by right). done.
  - by rewrite !(modify_buy_calls _ d road_name st Hcolor).
Qed.

(** ** The trial loop: what else the code shows *)

Section TrialExtras.
Context {World : Type} `{Game World}.

Lemma length_rounds_from first second k w :
  length (concat (rounds_from first second k w)) = (2 * k)%nat.
Proof.
  revert w. induction k as [|k IH]; intros w; simpl; [done|].
  rewrite IH. lia.
Qed.

Lemma goes_on_start w : both_solvent w → goes_on 0 w = true.
Proof. intros [H1 H2]. unfold goes_on. by rewrite H1, H2. Qed.

Lemma goes_on_lost i w :
  has_lost player1 w = true ∨ has_lost player2 w = true →
  goes_on i w = false.
Proof.
  unfold goes_on. intros [-> | ->]; [done|].
  by destruct (has_lost player1 w).
Qed.

Lemma both_solvent_dec w :
  both_solvent w
  ∨ (has_lost player1 w = true ∨ has_lost player2 w = true).
Proof.
  unfold both_solvent.
  destruct (has_lost player1 w), (has_lost player2 w); auto.
Qed.

(** X12. A trial counts between 0 and 1000 rounds, and calls [play] twice
    per counted round: the number of calls is twice [idx_count], so at most
    2000, and never odd. *)
Theorem trial_makes_two_calls_per_round seed :
  0 ≤ idx_count (trial seed) ≤ 1000
  ∧ Z.of_nat (length (concat (rounds (trial seed))))
    = 2 * idx_count (trial seed)
  ∧ Forall (λ round, length round = 2%nat) (rounds (trial seed)).
Proof.
  destruct (trial_plays seed) as (_ & Hplays & _).
  pose proof (plays_counter _ _ _ _ _ _ Hplays) as Hcount.
  pose proof (plays_cap _ _ _ _ _ _ Hplays ltac:(lia)) as Hcap.
  destruct (plays_pair _ _ _ _ _ _ _ Hplays) as (Hrounds & _ & _).
  split_and!; [lia | lia | |].
  - rewrite Hrounds, length_rounds_from. lia.
  - rewrite Hrounds. generalize (length (rounds (trial seed))) (start seed).
    intros k. induction k as [|k IH]; intros w; simpl; constructor; auto.
Qed.

(** X13. A trial plays no round exactly when a player has already lost in
    the game that the set-up and the shuffle leave: then nothing is played,
    the counter stays 0 and the label is read off that game; otherwise at
    least one full round is played. *)
Theorem no_round_iff_lost_at_start seed :
  ((has_lost player1 (start seed) = true
    ∨ has_lost player2 (start seed) = true)
   ∧ rounds (trial seed) = []
   ∧ idx_count (trial seed) = 0
   ∧ final (trial seed) = start seed)
  ∨ (both_solvent (start seed)
     ∧ rounds (trial seed) ≠ []
     ∧ 1 ≤ idx_count (trial seed)).
Proof.
  destruct (trial_plays seed) as (_ & Hplays & _).
  pose proof (plays_counter _ _ _ _ _ _ Hplays) as Hcount.
  pose proof (plays_end _ _ _ _ _ _ Hplays) as Hend.
  destruct (plays_pair _ _ _ _ _ _ _ Hplays) as (_ & Hfinal & Hon).
  destruct (rounds (trial seed)) as [|round played] eqn:Hrounds;
    simpl in Hcount, Hfinal, Hon.
  - left. rewrite Hcount, Hfinal in Hend |- *. unfold boundary in *.
    simpl in Hend |- *. split_and!; try done.
    destruct (both_solvent_dec (start seed)) as [Hsolvent | Hlost]; [|done].
    apply goes_on_start in Hsolvent.
    change (0 + Z.of_nat 0) with 0 in Hend. congruence.
  - right. inversion Hon as [|? ? Hon0 _]; subst.
    unfold boundary in Hon0. simpl in Hon0.
    split_and!; [by eapply goes_on_solvent | done | lia].
Qed.

Lemma solvent_before_turn s w :
  bankruptcy_is_final → both_solvent (play s w) → both_solvent w.
Proof.
  intros Hfinal [H1 H2]. unfold both_solvent.
  destruct (has_lost player1 w) eqn:E1;
    [apply (Hfinal _ s) in E1; congruence|].
  destruct (has_lost player2 w) eqn:E2;
    [apply (Hfinal _ s) in E2; congruence|].
  done.
Qed.

Lemma plays_pair_before_last first second i w played n w' :
  bankruptcy_is_final →
  plays [first; second] i w played n w' →
  ∀ earlier last_round,
    played = (earlier ++ [last_round])%list →
    Forall (Forall (λ t : turn World, both_solvent t.2)) earlier
    ∧ starts_solvent last_round.
Proof.
  intros Hfinal.
  induction 1 as [|i w turns w' played n w'' E Hround Hrest IH];
    intros earlier last_round Heq.
  { by destruct earlier. }
  rewrite for_player_in_pair in Hround. injection Hround as <- <-.
  pose proof (goes_on_solvent _ _ E) as Hw.
  destruct earlier as [|round earlier]; simpl in Heq.
  - injection Heq as <- _. split; [constructor | exact Hw].
  - injection Heq as <- Hplayed.
    destruct (IH earlier last_round Hplayed) as [IH1 IH2].
    split; [|done]. constructor; [|done].
    assert (Hnext : both_solvent (full_round first second w)).
    { inversion Hrest as [? ? _ | ? ? ? ? ? ? ? Hon]; subst.
      - by destruct earlier.
      - by eapply goes_on_solvent. }
    apply Forall_cons_2; [exact Hw|].
    apply Forall_cons_2; [|apply Forall_nil_2].
    by apply (solvent_before_turn second).
Qed.

(** X14. If no turn brings a player who has lost back, at most one call to
    [play] in a trial starts after a bankruptcy, and it is the last one: in
    every round but the last both turns start with neither player having
    lost, and so does the first turn of the last round. *)
Theorem only_the_last_turn_follows_a_bankruptcy seed earlier last_round :
  bankruptcy_is_final →
  rounds (trial seed) = (earlier ++ [last_round])%list →
  Forall (Forall (λ t : turn World, both_solvent t.2)) earlier
  ∧ starts_solvent last_round.
Proof.
  intros Hfinal Heq.
  destruct (trial_plays seed) as (_ & Hplays & _).
  by eapply plays_pair_before_last.
Qed.
End TrialExtras.

Lemma wallet_bankruptcy_is_final : bankruptcy_is_final (World := Wallet).
Proof.
  intros s s' w. destruct s, s'; simpl; intros Hlost;
    apply bool_decide_eq_true in Hlost; apply bool_decide_eq_true; lia.
Defined.

Lemma only_the_last_turn_follows_a_bankruptcy_witness :
  let earlier := [[(player1, mkWallet 250 150); (player2, mkWallet 150 150)]] in
  let last_round := [(player1, mkWallet 150 50); (player2, mkWallet 50 50)] in
  (bankruptcy_is_final (World := Wallet)
   ∧ rounds (trial (World := Wallet) 0) = (earlier ++ [last_round])%list)
  ∧ has_lost player2 (final (trial (World := Wallet) 0)) = true
  ∧ Forall (Forall (λ t : turn Wallet, both_solvent t.2)) earlier
  ∧ starts_solvent last_round.
Proof.
  intros earlier last_round.
  assert (H1 : rounds (trial (World := Wallet) 0)
               = (earlier ++ [last_round])%list)
    by (vm_compute; reflexivity).
  split; [split; [exact wallet_bankruptcy_is_final | exact H1]|].
  split; [vm_compute; reflexivity|].
  exact (only_the_last_turn_follows_a_bankruptcy 0 earlier last_round
           wallet_bankruptcy_is_final H1).
Defined.

Section TrialLength.
Context {World : Type} `{Game World}.

(** X21. The length of a trial is fixed by the games between full rounds:
    if neither player has lost at the start of the rounds 0 to [j-1], and at
    the start of round [j] a player has lost or [j] is 1000, then the trial
    counts exactly [j] rounds and ends in the game at the start of round
    [j]; what [has_lost] says between the two turns of a round plays no
    part. *)
Theorem trial_ends_at_first_lost_round_start seed j :
  let first := first_mover seed in
  let second := second_mover seed in
  (j ≤ 1000)%nat →
  Forall (λ i, both_solvent (boundary first second i (start seed))) (seq 0 j) →
  ¬ both_solvent (boundary first second j (start seed)) ∨ j = 1000%nat →
  idx_count (trial seed) = Z.of_nat j
  ∧ length (rounds (trial seed)) = j
  ∧ final (trial seed) = boundary first second j (start seed).
Proof.
  intros first second Hj Hbefore Hat.
  destruct (trial_plays seed) as (_ & Hplays & _).
  pose proof (plays_counter _ _ _ _ _ _ Hplays) as Hcount.
  pose proof (plays_end _ _ _ _ _ _ Hplays) as Hend.
  destruct (plays_pair _ _ _ _ _ _ _ Hplays) as (_ & Hfinal & Hon).
  set (k := length (rounds (trial seed))) in *.
  fold first second in Hfinal, Hon.
  assert (Hk : k = j).
  { destruct (Nat.lt_trichotomy k j) as [Hlt | [Heq | Hgt]]; [|done|].
    - rewrite list.Forall_forall in Hbefore.
      assert (Hsolv : both_solvent (boundary first second k (start seed))).
      { apply Hbefore, elem_of_seq. lia. }
      rewrite <- Hfinal in Hsolv. destruct Hsolv as [H1 H2].
      unfold goes_on in Hend. rewrite H1, H2 in Hend. simpl in Hend.
      apply bool_decide_eq_false in Hend. lia.
    - rewrite list.Forall_forall in Hon.
      assert (Hgo : goes_on (0 + Z.of_nat j)
                      (boundary first second j (start seed)) = true).
      { apply Hon, elem_of_seq. lia. }
      destruct Hat as [Hlost | ->].
      + destruct Hlost. by eapply goes_on_solvent.
      + apply goes_on_lt in Hgo. lia. }
  rewrite <- Hk. split_and!; [lia | done | done].
Qed.
End TrialLength.

Lemma trial_ends_at_first_lost_round_start_witness :
  let first := first_mover (World := Wallet) 0 in
  let second := second_mover (World := Wallet) 0 in
  ((2 ≤ 1000)%nat
   ∧ Forall (λ i, both_solvent (boundary first second i (start 0))) (seq 0 2)
   ∧ ¬ both_solvent (boundary first second 2 (start 0)))
  ∧ idx_count (trial (World := Wallet) 0) = 2
  ∧ final (trial (World := Wallet) 0) = mkWallet 50 (-50).
Proof.
  intros first second.
  assert (H1 : (2 ≤ 1000)%nat) by lia.
  assert (H2 : Forall (λ i, both_solvent
                              (boundary first second i (start 0))) (seq 0 2)).
  { repeat (apply Forall_cons_2; [split; reflexivity|]). apply Forall_nil_2. }
  assert (H3 : ¬ both_solvent (boundary first second 2 (start 0))).
  { intros [_ Hlost]. vm_compute in Hlost. discriminate. }
  split; [done|].
  destruct (trial_ends_at_first_lost_round_start (World := Wallet) 0 2
              H1 H2 (or_introl H3)) as (E1 & _ & E3).
  split; [exact E1|]. rewrite E3. reflexivity.
Defined.

(** ** The counts, the test and the running counts: what else the code
    shows *)

Lemma n_lost_app label rows rows' :
  n_lost label (rows ++ rows') = (n_lost label rows + n_lost label rows')%nat.
Proof. unfold n_lost. by rewrite list.filter_app, length_app. Qed.

Lemma n_lost_le label rows : (n_lost label rows ≤ length rows)%nat.
Proof. apply length_filter. Qed.

Lemma n_lost_take_mono label rows i j :
  (i ≤ j)%nat →
  (n_lost label (take i rows) ≤ n_lost label (take j rows))%nat.
Proof.
  intros Hij. replace j with (i + (j - i))%nat by lia.
  rewrite <- take_take_drop, n_lost_app. lia.
Qed.

Lemma count_start_cons name row rows :
  count_start name (row :: rows)
  = ((if bool_decide (starting_player row = name
                      ∧ lost_player row ≠ "nobody_lost") then 1 else 0)
     + count_start name rows)%nat.
Proof.
  unfold count_start. rewrite filter_cons.
  case_decide; case_bool_decide; done.
Qed.

(** Decided rows are started by one of the two players when each row names
    one of them. *)
Lemma count_start_decided rows :
  Forall (λ row, starting_player row = "player1"
                 ∨ starting_player row = "player2") rows →
  Forall (λ row, outcome_label (lost_player row)) rows →
  (count_start "player1" rows + count_start "player2" rows)%nat
  = (n_lost_p1 rows + n_lost_p2 rows)%nat.
Proof.
  unfold n_lost_p1, n_lost_p2.
  induction rows as [|row rows IH]; intros Hstart Hlabel; [done|].
  inversion Hstart as [|? ? Hrow Hstart']; subst.
  inversion Hlabel as [|? ? Hout Hlabel']; subst.
  rewrite !count_start_cons, !n_lost_cons.
  specialize (IH Hstart' Hlabel').
  destruct Hrow as [Hs | Hs], Hout as [Hl | [Hl | Hl]];
    rewrite Hs, Hl; simpl; lia.
Qed.

Section SimulationExtras.
Context {World : Type} `{Game World}.

(** X15. Every trial of a simulation is counted once: the results of [n]
    seeds have [n] rows, and the rows labelled [player1_lost],
    [player2_lost] and [nobody_lost] add up to [n]. *)
Theorem simulation_counts_add_up n :
  ∃ rows,
    simulate n = Some rows
    ∧ length rows = n
    ∧ (n_lost_p1 rows + n_lost_p2 rows + n_lost "nobody_lost" rows)%nat = n.
Proof.
  eexists. split; [apply simulate_rows|].
  set (rows := _ <$> seq 0 n).
  assert (Hlen : length rows = n) by (subst rows; by rewrite length_fmap, length_seq).
  split; [done|].
  assert (Hvalid : Forall (λ row, outcome_label (lost_player row)) rows).
  { subst rows. apply Forall_fmap, list.Forall_forall. intros seed _.
    unfold compose, lost_player, outcome_label. simpl.
    destruct (lost_label_cases (final (trial (Z.of_nat seed))))
      as [[-> _] | [[-> _] | [-> _]]]; auto. }
  pose proof (n_lost_partition rows) as Hpart.
  assert (Hnone : filter (λ row, ¬ outcome_label (lost_player row)) rows = []).
  { clear Hpart Hlen. induction Hvalid as [|row rest Hrow _ IH]; [done|].
    rewrite filter_cons. by case_decide. }
  rewrite Hnone in Hpart. simpl in Hpart. lia.
Qed.

(** X16. When the players keep the names they were constructed with, the
    two printed start counts cover the decided trials: over the results of
    a simulation, the decided rows started by player 1 and those started by
    player 2 are together as many as the rows labelled [player1_lost] or
    [player2_lost]. *)
Theorem start_counts_cover_decided_trials n :
  names_are_fixed →
  ∃ rows,
    simulate n = Some rows
    ∧ (count_start "player1" rows + count_start "player2" rows)%nat
      = (n_lost_p1 rows + n_lost_p2 rows)%nat.
Proof.
  intros Hnames. eexists. split; [apply simulate_rows|].
  apply count_start_decided.
  - apply Forall_fmap, list.Forall_forall. intros seed _.
    unfold compose, starting_player. simpl.
    destruct (Hnames (final (trial (Z.of_nat seed)))) as [Hn1 Hn2].
    destruct (first_mover (Z.of_nat seed)); auto.
  - apply Forall_fmap, list.Forall_forall. intros seed _.
    unfold compose, lost_player, outcome_label. simpl.
    destruct (lost_label_cases (final (trial (Z.of_nat seed))))
      as [[-> _] | [[-> _] | [-> _]]]; auto.
Qed.
End SimulationExtras.

Lemma purse_names_are_fixed : names_are_fixed (World := Purse).
Proof. intros w. split; reflexivity. Defined.

Lemma start_counts_cover_decided_trials_witness :
  names_are_fixed (World := Purse)
  ∧ ∃ rows,
      simulate (World := Purse) 3 = Some rows
      ∧ (count_start "player1" rows + count_start "player2" rows)%nat
        = (n_lost_p1 rows + n_lost_p2 rows)%nat.
Proof.
  split; [exact purse_names_are_fixed|].
  exact (start_counts_cover_decided_trials 3 purse_names_are_fixed).
Defined.

Section OrderExtras.
Context {BinomTestResult : Type}
        (binomtest : nat → nat → QArith_base.Q → string → BinomTestResult).

(** X17. The counts and the test do not depend on the order of the rows:
    results that are a rearrangement of each other give the same
    [n_lost] for every label, the same start counts and the same call of
    the test. *)
Theorem analysis_ignores_row_order rows rows' label name :
  rows ≡ₚ rows' →
  n_lost label rows = n_lost label rows'
  ∧ count_start name rows = count_start name rows'
  ∧ significance binomtest rows = significance binomtest rows'.
Proof.
  intros Hperm.
  assert (Hn : ∀ l, n_lost l rows = n_lost l rows').
  { intros l. unfold n_lost. by rewrite Hperm. }
  split_and!.
  - apply Hn.
  - unfold count_start. by rewrite Hperm.
  - unfold significance, n_lost_p1, n_lost_p2. by rewrite !Hn.
Qed.
End OrderExtras.

Lemma analysis_ignores_row_order_witness :
  let rows := [(0, "player1_lost", "player1"); (1, "nobody_lost", "player2");
               (2, "player2_lost", "player2")] in
  let rows' := [(2, "player2_lost", "player2"); (0, "player1_lost", "player1");
                (1, "nobody_lost", "player2")] in
  rows ≡ₚ rows'
  ∧ n_lost "player1_lost" rows = n_lost "player1_lost" rows'
  ∧ count_start "player2" rows = count_start "player2" rows'
  ∧ significance (λ k n _ _, (k, n)) rows = (1%nat, 2%nat)
  ∧ significance (λ k n _ _, (k, n)) rows' = (1%nat, 2%nat).
Proof.
  intros rows rows'.
  assert (H1 : rows ≡ₚ rows').
  { subst rows rows'. etrans; [apply perm_skip, perm_swap | apply perm_swap]. }
  destruct (analysis_ignores_row_order (λ k n _ _, (k, n)) rows rows'
              "player1_lost" "player2" H1) as (E1 & E2 & E3).
  split_and!; [done | done | done | vm_compute; reflexivity |].
  rewrite <- E3. vm_compute. reflexivity.
Defined.

Lemma range_from_0_lt stop step i :
  (0 < step)%nat → (i < (stop + step - 1) / step)%nat → (i * step < stop)%nat.
Proof.
  intros Hstep Hi.
  pose proof (Nat.Div0.mul_div_le (stop + step - 1) step) as Hdiv.
  nia.
Qed.

Lemma no_other_label rows :
  Forall (λ r, outcome_label (lost_player r)) rows →
  filter (λ r, ¬ outcome_label (lost_player r)) rows = [].
Proof.
  induction 1 as [|r rest Hr _ IH]; [done|].
  rewrite filter_cons. case_decide; [done | exact IH].
Qed.

(** The snapshot at each index of [list_agg]. *)
Lemma list_agg_lookup stop step rows snaps i row :
  list_agg stop step rows = Some snaps →
  snaps !! i = Some row →
  row = snapshot rows (i * step) ∧ (i * step < stop)%nat ∧ (0 < step)%nat.
Proof.
  unfold list_agg, range_from_0.
  destruct step as [|step]; [done|]. intros [= <-].
  rewrite !list_lookup_fmap.
  destruct (seq 0 _ !! i) as [j|] eqn:Hj; [|done]. simpl. intros [= <-].
  apply lookup_seq in Hj as [-> Hlt]. simpl in *.
  split_and!; [done | | lia].
  apply (range_from_0_lt stop (S step) i); [lia | done].
Qed.

Lemma snapshot_total rows seed :
  (n_lost "player2_lost" (take seed rows)
   + n_lost "player1_lost" (take seed rows)
   + n_lost "nobody_lost" (take seed rows)
   + length (filter (λ row, ¬ outcome_label (lost_player row))
               (take seed rows)))%nat
  = (seed `min` length rows)%nat.
Proof.
  pose proof (n_lost_partition (take seed rows)) as Hpart.
  rewrite length_take in Hpart. unfold n_lost_p1, n_lost_p2 in Hpart. lia.
Qed.

(** X18. The running counts stop short of the end: every row of [list_agg]
    is taken at a seed below [stop] and counts at most that many trials, so
    with [stop] results or more no row counts them all; the rows from the
    last seed of the range on never enter the plot. *)
Theorem running_counts_stop_short stop step rows snaps row :
  list_agg stop step rows = Some snaps →
  row ∈ snaps →
  (agg_seed row < stop)%nat
  ∧ (agg_win_p1 row + agg_win_p2 row + agg_nobody_lost row ≤ agg_seed row)%nat
  ∧ ((stop ≤ length rows)%nat →
     (agg_win_p1 row + agg_win_p2 row + agg_nobody_lost row
      < length rows)%nat).
Proof.
  intros Hagg [i Hi]%list_elem_of_lookup.
  destruct (list_agg_lookup _ _ _ _ _ _ Hagg Hi) as (-> & Hlt & _).
  pose proof (snapshot_total rows (i * step)) as Htotal.
  unfold agg_seed, agg_win_p1, agg_win_p2, agg_nobody_lost, snapshot. simpl.
  split_and!; [done | lia | lia].
Qed.

Lemma running_counts_stop_short_witness :
  let rows := [(0, "player1_lost", "player1"); (1, "player2_lost", "player2");
               (2, "player2_lost", "player2"); (3, "nobody_lost", "player1");
               (4, "player1_lost", "player2"); (5, "player1_lost", "player1")]
  in
  let snaps := [(0, 0, 0, 0); (2, 1, 1, 0); (4, 2, 1, 1)]%nat in
  (list_agg 6 2 rows = Some snaps ∧ (4, 2, 1, 1)%nat ∈ snaps
   ∧ (6 ≤ length rows)%nat)
  ∧ (agg_seed (4, 2, 1, 1) < 6)%nat
  ∧ (agg_win_p1 (4, 2, 1, 1) + agg_win_p2 (4, 2, 1, 1)
     + agg_nobody_lost (4, 2, 1, 1) < length rows)%nat
  ∧ list_agg 6 0 rows = None.
Proof.
  intros rows snaps.
  assert (H1 : list_agg 6 2 rows = Some snaps) by (vm_compute; reflexivity).
  assert (H2 : (4, 2, 1, 1)%nat ∈ snaps).
  { subst snaps. do 2 apply list_elem_of_further. apply list_elem_of_here. }
  assert (H3 : (6 ≤ length rows)%nat) by (simpl; lia).
  split; [done|].
  destruct (running_counts_stop_short 6 2 rows snaps (4, 2, 1, 1)%nat H1 H2)
    as (E1 & _ & E3).
  split_and!; [exact E1 | exact (E3 H3) | reflexivity].
Defined.

(** X19. The running counts never go down: from one row of [list_agg] to a
    later one the seed and each of the three counts stay or grow, and the
    first row, taken at seed 0, counts nothing. *)
Theorem running_counts_are_monotone stop step rows snaps i j a b :
  list_agg stop step rows = Some snaps →
  snaps !! i = Some a →
  snaps !! j = Some b →
  (i ≤ j)%nat →
  (agg_seed a ≤ agg_seed b)%nat
  ∧ (agg_win_p1 a ≤ agg_win_p1 b)%nat
  ∧ (agg_win_p2 a ≤ agg_win_p2 b)%nat
  ∧ (agg_nobody_lost a ≤ agg_nobody_lost b)%nat
  ∧ snaps !! 0%nat = Some (0, 0, 0, 0)%nat.
Proof.
  intros Hagg Hi Hj Hij.
  destruct (list_agg_lookup _ _ _ _ _ _ Hagg Hi) as (-> & _ & _).
  destruct (list_agg_lookup _ _ _ _ _ _ Hagg Hj) as (-> & _ & _).
  assert (Hseed : (i * step ≤ j * step)%nat) by nia.
  unfold agg_seed, agg_win_p1, agg_win_p2, agg_nobody_lost, snapshot. simpl.
  split_and!; [done | by apply n_lost_take_mono.. |].
  destruct (snaps !! 0%nat) as [first|] eqn:Hfirst.
  - by destruct (list_agg_lookup _ _ _ _ _ _ Hagg Hfirst) as (-> & _ & _).
  - apply lookup_ge_None in Hfirst. apply lookup_lt_Some in Hi. lia.
Qed.

Lemma running_counts_are_monotone_witness :
  let rows := [(0, "player1_lost", "player1"); (1, "player2_lost", "player2");
               (2, "player2_lost", "player2"); (3, "nobody_lost", "player1");
               (4, "player1_lost", "player2")] in
  let snaps := [(0, 0, 0, 0); (2, 1, 1, 0); (4, 2, 1, 1)]%nat in
  (list_agg 5 2 rows = Some snaps
   ∧ snaps !! 1%nat = Some (2, 1, 1, 0)%nat
   ∧ snaps !! 2%nat = Some (4, 2, 1, 1)%nat)
  ∧ (agg_win_p1 (2, 1, 1, 0) ≤ agg_win_p1 (4, 2, 1, 1))%nat
  ∧ (agg_nobody_lost (2, 1, 1, 0) ≤ agg_nobody_lost (4, 2, 1, 1))%nat.
Proof.
  intros rows snaps.
  assert (H1 : list_agg 5 2 rows = Some snaps) by (vm_compute; reflexivity).
  assert (H2 : snaps !! 1%nat = Some (2, 1, 1, 0)%nat) by reflexivity.
  assert (H3 : snaps !! 2%nat = Some (4, 2, 1, 1)%nat) by reflexivity.
  split; [done|].
  destruct (running_counts_are_monotone 5 2 rows snaps 1 2 _ _ H1 H2 H3
              ltac:(lia)) as (_ & E2 & _ & E4 & _).
  split; [exact E2 | exact E4].
Defined.

(** X20. A row of [list_agg] accounts for every trial before its seed: when
    each result carries one of the three labels, the wins of player 1, the
    wins of player 2 and the undecided trials of a row add up to its seed,
    or to the number of results when there are fewer. *)
Theorem running_counts_cover_the_prefix stop step rows snaps row :
  Forall (λ r, outcome_label (lost_player r)) rows →
  list_agg stop step rows = Some snaps →
  row ∈ snaps →
  (agg_win_p1 row + agg_win_p2 row + agg_nobody_lost row)%nat
  = (agg_seed row `min` length rows)%nat.
Proof.
  intros Hvalid Hagg [i Hi]%list_elem_of_lookup.
  destruct (list_agg_lookup _ _ _ _ _ _ Hagg Hi) as (-> & _ & _).
  pose proof (snapshot_total rows (i * step)) as Htotal.
  assert (Hnone : filter (λ r, ¬ outcome_label (lost_player r))
                    (take (i * step) rows) = []).
  { apply no_other_label. by apply Forall_take. }
  rewrite Hnone in Htotal.
  unfold agg_seed, agg_win_p1, agg_win_p2, agg_nobody_lost, snapshot.
  simpl in *. lia.
Qed.

Lemma running_counts_cover_the_prefix_witness :
  let rows := [(0, "player1_lost", "player1"); (1, "player2_lost", "player2");
               (2, "player2_lost", "player2"); (3, "nobody_lost", "player1")]
  in
  let snaps := [(0, 0, 0, 0); (3, 2, 1, 0); (6, 2, 1, 1)]%nat in
  (Forall (λ r, outcome_label (lost_player r)) rows
   ∧ list_agg 7 3 rows = Some snaps
   ∧ (6, 2, 1, 1)%nat ∈ snaps)
  ∧ (agg_win_p1 (6, 2, 1, 1) + agg_win_p2 (6, 2, 1, 1)
     + agg_nobody_lost (6, 2, 1, 1))%nat = 4%nat.
Proof.
  intros rows snaps.
  assert (H1 : Forall (λ r, outcome_label (lost_player r)) rows).
  { subst rows. unfold outcome_label.
    repeat (apply Forall_cons_2; [simpl; auto|]). apply Forall_nil_2. }
  assert (H2 : list_agg 7 3 rows = Some snaps) by (vm_compute; reflexivity).
  assert (H3 : (6, 2, 1, 1)%nat ∈ snaps).
  { subst snaps. do 2 apply list_elem_of_further. apply list_elem_of_here. }
  split; [done|].
  exact (running_counts_cover_the_prefix 7 3 rows snaps (6, 2, 1, 1)%nat
           H1 H2 H3).
Defined.
